(** * dom-to-canvas: the snapshot builder, the hit-tester and the click handler

    Shallow embedding of [src/dom-to-canvas.js].

    Modelling conventions.
    - JS numbers used for coordinates are exact rationals [Q]; the source
      only adds, subtracts, multiplies and divides them, so every equality
      below holds exactly (stronger than "within floating-point tolerance").
    - Object identity: every object literal the code creates gets a fresh
      allocation number ([nid]); a field holding an object reference holds
      that number.  The counter of the JS heap is threaded explicitly.
    - The document index ([docParams]) holds references (allocation numbers),
      as the JS arrays hold references to nodes that are mutated later.
    - The builder also records, as an observation, the divisor of every
      division it evaluates ([divisors]). *)

From Stdlib Require Import String List Arith ZArith QArith Qabs Lia Lqa Bool.
Import ListNotations.

Set Warnings "-register-all".

Local Open Scope Q_scope.

(** ** Data model *)

(** A JS number built from a count. *)
Definition qn (n : nat) : Q := inject_Z (Z.of_nat n).

(** [a < b] and [a <= b] on JS numbers. *)
Definition Qltb (a b : Q) : bool := negb (Qle_bool b a).
Definition Qleb (a b : Q) : bool := Qle_bool a b.

(** A JS object used as a string-keyed map: lookup and assignment. *)
Fixpoint assoc_get {A} (k : string) (l : list (string * A)) : option A :=
  match l with
  | [] => None
  | (k', v) :: l' => if String.eqb k k' then Some v else assoc_get k l'
  end.

Fixpoint assoc_set {A} (k : string) (v : A) (l : list (string * A))
  : list (string * A) :=
  match l with
  | [] => [(k, v)]
  | (k', v') :: l' =>
      if String.eqb k k' then (k, v) :: l' else (k', v') :: assoc_set k v l'
  end.

(** Truthiness of an optional string property ([undefined] and [""] are
    falsy). *)
Definition truthy_str (o : option string) : bool :=
  match o with
  | Some s => negb (String.eqb s "")
  | None => false
  end.

(** [node.attributes]: a real element's [NamedNodeMap], a vanilla object
    (the attributes of a snapshot node), or [undefined]. *)
Inductive Attrs :=
| NamedNodeMap (l : list (string * string))
| PlainAttrs (l : list (string * string))
| UndefinedAttrs.

(** A source node: a real DOM element or a DOM-like node.  Its
    [childElementCount] is the length of [src_children] (true of a DOM
    element, and of a snapshot node, see [built_count]). *)
Inductive Src := mkSrc {
  src_tagName : option string;
  src_id : option string;
  src_attributes : Attrs;
  src_children : list Src
}.

(** The DOM-like node built by [traverseDomNodes] (fields that the code
    always leaves [null] or [[]], such as [firstChild] and [childNodes], and
    the [__nodeRef] back-pointer to the DOM are omitted). *)
Inductive Snap := mkSnap {
  nid : nat;
  firstElementChild : option nat;
  lastElementChild : option nat;
  nextElementSibling : option nat;
  previousElementSibling : option nat;
  children : list Snap;
  childElementCount : nat;
  attributes : Attrs;
  depth : nat;
  end_ : Q;
  start : Q;
  tagName : option string;
  parentNode : option nat;
  id_ : option string
}.

(** The [docParams] object of [createDOMLikeObject]. *)
Record DocParams := mkDocParams {
  body : option nat;
  head : option nat;
  documentElement : option nat;
  ids : list (string * nat);
  links : list nat;
  images : list nat;
  scripts : list nat;
  forms : list nat;
  largestDepth : nat
}.

Definition initDocParams : DocParams :=
  mkDocParams None None None [] [] [] [] [] 0.

(** State threaded through one build: the index, the heap counter and the
    divisions evaluated so far. *)
Record BState := mkBState {
  docParams : DocParams;
  nextObj : nat;
  divisors : list nat
}.

(** ** [docRefTagsMap] *)

(** [node.attributes.href] is truthy: on a [NamedNodeMap] the named
    property is the [Attr] object (truthy when present); on a vanilla object
    it is the string value. *)
Definition href_truthy (a : Attrs) : bool :=
  match a with
  | NamedNodeMap l => match assoc_get "href" l with Some _ => true | None => false end
  | PlainAttrs l => truthy_str (assoc_get "href" l)
  | UndefinedAttrs => false
  end.

(** [docRefTagsMap[node.tagName](newNode, node, documentRef)]; [None] when
    the tag has no entry in the map. *)
Definition docRefTagsMap (tag : string) (newNode : nat) (node : Src)
  (d : DocParams) : option DocParams :=
  let '(mkDocParams b h de is ls ims scs fs ld) := d in
  if String.eqb tag "HTML" then Some (mkDocParams b h (Some newNode) is ls ims scs fs ld)
  else if String.eqb tag "HEAD" then Some (mkDocParams b (Some newNode) de is ls ims scs fs ld)
  else if String.eqb tag "BODY" then Some (mkDocParams (Some newNode) h de is ls ims scs fs ld)
  else if String.eqb tag "FORM" then Some (mkDocParams b h de is ls ims scs (fs ++ [newNode]) ld)
  else if String.eqb tag "SCRIPT" then Some (mkDocParams b h de is ls ims (scs ++ [newNode]) fs ld)
  else if String.eqb tag "A" then
    Some (if href_truthy (src_attributes node)
          then mkDocParams b h de is (ls ++ [newNode]) ims scs fs ld else d)
  else if String.eqb tag "AREA" then
    Some (if href_truthy (src_attributes node)
          then mkDocParams b h de is (ls ++ [newNode]) ims scs fs ld else d)
  else if String.eqb tag "IMG" then Some (mkDocParams b h de is ls (ims ++ [newNode]) scs fs ld)
  else None.

(** ** [traverseDomNodes] *)

(** [if (depth > docParams.largestDepth) docParams.largestDepth = depth] *)
Definition bump_depth (depth : nat) (d : DocParams) : DocParams :=
  if Nat.ltb (largestDepth d) depth
  then mkDocParams (body d) (head d) (documentElement d) (ids d) (links d)
         (images d) (scripts d) (forms d) depth
  else d.

(** The attribute copy: a [NamedNodeMap] is copied name by name into a
    fresh vanilla object, anything else is shared. *)
Definition copy_attributes (a : Attrs) : Attrs :=
  match a with
  | NamedNodeMap l =>
      PlainAttrs (fold_left (fun acc p => assoc_set (fst p) (snd p) acc) l [])
  | _ => a
  end.

(** [if (node.id) { newNode.id = node.id; docParams.ids[node.id] = newNode; }] *)
Definition register_id (node : Src) (me : nat) (d : DocParams) : DocParams :=
  match src_id node with
  | Some i =>
      if truthy_str (Some i)
      then mkDocParams (body d) (head d) (documentElement d) (assoc_set i me (ids d))
             (links d) (images d) (scripts d) (forms d) (largestDepth d)
      else d
  | None => d
  end.

Definition register_tag (node : Src) (me : nat) (d : DocParams) : DocParams :=
  match src_tagName node with
  | Some t => match docRefTagsMap t me node d with Some d' => d' | None => d end
  | None => d
  end.

(** The [for (i = 0; i < childCount; i++)] loop, given the recursive call. *)
Fixpoint traverse_children
  (trav : Src -> option nat -> nat -> Q -> Q -> BState -> Snap * BState)
  (me : option nat) (childDepth : nat) (start width : Q)
  (cs : list Src) (i : nat) (st : BState) : list Snap * BState :=
  match cs with
  | [] => ([], st)
  | c :: cs' =>
      let childStart := start + qn i * width in
      let '(child, st1) := trav c me childDepth childStart (childStart + width) st in
      let '(rest, st2) := traverse_children trav me childDepth start width cs' (S i) st1 in
      (child :: rest, st2)
  end.

Definition set_siblings (c : Snap) (prev next : option nat) : Snap :=
  mkSnap (nid c) (firstElementChild c) (lastElementChild c) next prev
    (children c) (childElementCount c) (attributes c) (depth c) (end_ c)
    (start c) (tagName c) (parentNode c) (id_ c).

(** [newNode.children.forEach(...)]: the child at index [i > 0] gets
    [previousElementSibling = children[i-1]], the one at [i < childCount-1]
    gets [nextElementSibling = children[i+1]]. *)
Fixpoint bind_siblings (prev : option nat) (cs : list Snap) : list Snap :=
  match cs with
  | [] => []
  | c :: cs' =>
      set_siblings c prev (option_map nid (hd_error cs'))
        :: bind_siblings (Some (nid c)) cs'
  end.

Fixpoint traverseDomNodes (node : Src) (parentNode : option nat) (depth : nat)
  (start end_ : Q) (st : BState) {struct node} : Snap * BState :=
  match node with
  | mkSrc tag sid attrs kids =>
    let d0 := bump_depth depth (docParams st) in
    let me := nextObj st in
    let d1 := register_tag node me (register_id node me d0) in
    let newId := if truthy_str sid then sid else None in
    let childDepth := S depth in
    let childCount := length kids in
    let width := (end_ - start) / qn childCount in
    let st1 := mkBState d1 (S me) (divisors st ++ [childCount]) in
    let '(kids', st2) :=
      traverse_children traverseDomNodes (Some me) childDepth start width kids 0 st1 in
    let fec := match kids' with [] => None | c :: _ => Some (nid c) end in
    let lec := match rev kids' with [] => None | c :: _ => Some (nid c) end in
    (mkSnap me (if Nat.eqb childCount 0 then None else fec)
       (if Nat.eqb childCount 0 then None else lec) None None
       (bind_siblings None kids') childCount (copy_attributes attrs) depth end_
       start tag parentNode newId, st2)
  end.

(** ** [createDOMLikeObject] *)

(** The object returned by [createDOMLikeObject]: [Object.assign({},
    newDocument, docParams)], a fresh object carrying the fields of the
    root node (with the identity of the fresh object) and those of
    [docParams]. *)
Record DOMLike := mkDOMLike {
  root : Snap;
  params : DocParams
}.

Definition set_nid (n : Snap) (o : nat) : Snap :=
  mkSnap o (firstElementChild n) (lastElementChild n) (nextElementSibling n)
    (previousElementSibling n) (children n) (childElementCount n)
    (attributes n) (depth n) (end_ n) (start n) (tagName n) (parentNode n) (id_ n).

(** [heap] is the next free allocation number; the new one is returned. *)
Definition createDOMLikeObject (myDoc : Src) (start end_ : Q) (heap : nat)
  : DOMLike * nat :=
  let '(newDocument, st) :=
    traverseDomNodes myDoc None 0 start end_ (mkBState initDocParams heap []) in
  (mkDOMLike (set_nid newDocument (nextObj st)) (docParams st), S (nextObj st)).

(** A snapshot node read back as a source node (the drill-down rebuilds
    from it): same tag, [id], attribute object and children. *)
Fixpoint src_of_snap (n : Snap) : Src :=
  match n with
  | mkSnap _ _ _ _ _ kids _ attrs _ _ _ tag _ i =>
      mkSrc tag i attrs (map src_of_snap kids)
  end.

(** ** [searchForNodeWithXY] *)

Definition radius : Q := 5.

(** [isInNode] for the global [cellHeight] [ch]. *)
Definition isInNode (ch : Q) (node : Snap) (x y : Q) : bool :=
  let vCenter := start node + (end_ node - start node) / 2 in
  let hCenter := qn (depth node) * ch + 20 in
  let isInX := Qleb (vCenter - radius) x && Qleb x (vCenter + radius) in
  let isInY := Qleb (hCenter - radius) y && Qleb y (hCenter + radius) in
  isInX && isInY.

(** [x > child.start && x < child.end] *)
Definition inRange (x : Q) (child : Snap) : bool :=
  Qltb (start child) x && Qltb x (end_ child).

(** The loop over the children: the first child whose range holds [x] is
    searched and its result returned, whatever it is. *)
Fixpoint search_children (f : Snap -> option Snap) (x : Q) (cs : list Snap)
  : option Snap :=
  match cs with
  | [] => None
  | child :: cs' => if inRange x child then f child else search_children f x cs'
  end.

(** The loop runs over [node.children[i]] for [i < node.childElementCount];
    on built snapshots the two agree ([built_count]). *)
Fixpoint searchForNodeWithXY (ch : Q) (node : Snap) (x y : Q) : option Snap :=
  match node with
  | mkSnap _ _ _ _ _ kids _ _ _ _ _ _ _ _ =>
      if isInNode ch node x y then Some node
      else search_children (fun c => searchForNodeWithXY ch c x y) x kids
  end.

(** ** [drawNodes] *)

(** The calls issued on the drawing surface. *)
Inductive Call :=
| BeginPath
| MoveTo (x y : Q)
| LineTo (x y : Q)
| Stroke
| ClosePath
| FillStyle (s : string)
| StrokeStyle (s : string)
| Arc (x y r : Q)
| Fill
| FillText (t : string) (x y : Q)
| ClearRect (x y w h : Q)
| FillRect (x y w h : Q).

Definition nodeColorMap (tag : option string) : string :=
  match tag with
  | Some t =>
      if String.eqb t "HTML" then "#000"
      else if String.eqb t "HEAD" then "#F00"
      else if String.eqb t "BODY" then "#0F0"
      else "#2F73D8"
  | None => "#2F73D8"
  end.

Definition nodesWithVisibleTags (tag : option string) : option string :=
  match tag with
  | Some t =>
      if String.eqb t "HTML" || String.eqb t "HEAD" || String.eqb t "BODY"
      then Some t else None
  | None => None
  end.

Definition centerX (n : Snap) : Q := start n + (end_ n - start n) / 2.
Definition centerY (n : Snap) (height : Q) : Q := qn (depth n) * height + 20.

(** Dereference a child reference held by [node]. *)
Definition deref (cs : list Snap) (r : option nat) : option Snap :=
  match r with
  | Some o => find (fun c => Nat.eqb (nid c) o) cs
  | None => None
  end.

Fixpoint drawNodes (node : Snap) (height : Q) : list Call :=
  match node with
  | mkSnap _ fec lec _ _ kids _ _ _ _ _ tag _ _ =>
    let x := centerX node in
    let y := centerY node height in
    let siblingLine :=
      match deref kids fec, deref kids lec with
      | Some f, Some l =>
          if Nat.eqb (nid f) (nid l) then []
          else [BeginPath; MoveTo (centerX f) (centerY f height);
                LineTo (centerX l) (centerY l height); Stroke; ClosePath]
      | _, _ => []
      end in
    siblingLine
    ++ flat_map (fun child =>
         [BeginPath; MoveTo x y; LineTo (centerX child) (centerY child height);
          Stroke; ClosePath] ++ drawNodes child height) kids
    ++ [BeginPath; FillStyle (nodeColorMap tag); Arc x y radius; Fill]
    ++ match nodesWithVisibleTags tag with
       | Some t => [FillStyle "#000"; FillText t (x + 5) (y - 5)]
       | None => []
       end
  end.

(** ** Module state and the event handlers *)

Record Canvas := mkCanvas { width : Q; height : Q }.

Record MouseEvent := mkMouseEvent { offsetX : Q; offsetY : Q }.

(** The variables scoped at the top of the IIFE ([ctx] is reduced to its
    canvas), the JS heap counter, and the calls issued so far on the
    drawing surface. *)
Record World := mkWorld {
  ctx : option Canvas;
  currentTree : option DOMLike;
  treeStack : list DOMLike;
  cellHeight : Q;
  currentTreeHeight : Q;
  heap : nat;
  calls : list Call
}.

(** The back arrow drawn when [treeStack.length] is non-zero. *)
Definition backArrow (stack : list DOMLike) : list Call :=
  match stack with
  | [] => []
  | _ :: _ => [FillStyle "#000"; BeginPath; MoveTo 10 10; LineTo 20 5; LineTo 20 15; Fill]
  end.

(** [handleCanvasClick].  [treeStack.push] appends, [treeStack.pop] removes
    the last element.  The handler is registered by [drawDOM], which sets
    [ctx] and [currentTree] first; without them the JS would throw, and the
    model leaves the world unchanged. *)
Definition handleCanvasClick (event : MouseEvent) (w : World) : World :=
  let x := offsetX event in
  let y := offsetY event in
  match ctx w, currentTree w with
  | Some canvas, Some cur =>
    let step :=
      if Qltb x 20 && Qltb y 20 && negb (Nat.eqb (length (treeStack w)) 0)
      then Some (last (treeStack w) cur, removelast (treeStack w), heap w)
      else
        match searchForNodeWithXY (cellHeight w) (root cur) x y with
        | None => None
        | Some found =>
            let '(domLike, h') :=
              createDOMLikeObject (src_of_snap found) 0 (width canvas) (heap w) in
            Some (domLike, treeStack w ++ [cur], h')
        end in
    match step with
    | None => w
    | Some (domLike, stack', h') =>
        let ch := height canvas / qn (S (largestDepth (params domLike))) in
        mkWorld (ctx w) (Some domLike) stack' ch (currentTreeHeight w) h'
          (calls w
           ++ [ClearRect 0 0 (width canvas) (height canvas); FillStyle "#fff";
               FillRect 0 0 (width canvas) (height canvas)]
           ++ backArrow stack'
           ++ drawNodes (root domLike) ch)
    end
  | _, _ => w
  end.

(** The second argument of [drawDOM]: a JS value, with the class that
    [instanceof] sees. *)
Inductive JsVal :=
| JsHTMLDocument (s : Src)
| JsElement (s : Src)
| JsSnapshot (d : DOMLike)
| JsNumber (q : Q).

(** Operands of [instanceof]: a primitive boolean or an object. *)
Inductive JsOperand :=
| JBool (b : bool)
| JObj (v : JsVal).

Definition truthy (v : JsVal) : bool :=
  match v with
  | JsNumber q => negb (Qeq_bool q 0)
  | _ => true
  end.

(** [!v] *)
Definition js_not (v : JsVal) : JsOperand := JBool (negb (truthy v)).

(** [o instanceof HTMLDocument]; a primitive is never an instance. *)
Definition instanceof_HTMLDocument (o : JsOperand) : bool :=
  match o with
  | JObj (JsHTMLDocument _) => true
  | _ => false
  end.

(** The value read as a source node: property reads on a number give
    [undefined]. *)
Definition as_source (v : JsVal) : Src :=
  match v with
  | JsHTMLDocument s | JsElement s => s
  | JsSnapshot d => src_of_snap (root d)
  | JsNumber _ => mkSrc None None UndefinedAttrs []
  end.

(** [drawDOM(canvas, myDocument)].  The guard is written as in the source,
    [!myDocument instanceof HTMLDocument], which parses as
    [(!myDocument) instanceof HTMLDocument].  The event listeners it
    registers are not modelled. *)
Definition drawDOM (canvas : Canvas) (myDocument : JsVal) (w : World) : World :=
  if instanceof_HTMLDocument (js_not myDocument) then w
  else
    let '(domLike, h') :=
      createDOMLikeObject (as_source myDocument) 0 (width canvas) (heap w) in
    let ch := height canvas / qn (S (largestDepth (params domLike))) in
    mkWorld (Some canvas) (Some domLike) (treeStack w) ch ch h'
      (calls w
       ++ [ClearRect 0 0 (width canvas) (height canvas); FillStyle "#fff";
           FillRect 0 0 (width canvas) (height canvas); StrokeStyle "#ccc"]
       ++ drawNodes (root domLike) ch
       ++ backArrow (treeStack w)).

(** ** Reading a snapshot tree *)

(** The node reached from [n] by the child indices [p]. *)
Fixpoint subtree_at (n : Snap) (p : list nat) : option Snap :=
  match p with
  | [] => Some n
  | i :: p' =>
      match nth_error (children n) i with
      | Some c => subtree_at c p'
      | None => None
      end
  end.

(** The nodes tested before the node at [p] when a search descends along
    [p]: [n] and the nodes strictly between. *)
Fixpoint ancestors_at (n : Snap) (p : list nat) : list Snap :=
  match p with
  | [] => []
  | i :: p' =>
      match nth_error (children n) i with
      | Some c => n :: ancestors_at c p'
      | None => []
      end
  end.

(** The equal-width layout of the children of one node. *)
Definition childWidth (n : Snap) : Q :=
  (end_ n - start n) / qn (length (children n)).

Definition partitioned (n : Snap) : Prop :=
  forall i c, nth_error (children n) i = Some c ->
    start c = start n + qn i * childWidth n /\ end_ c = start c + childWidth n.

Definition AllPart (n : Snap) : Prop :=
  forall p m, subtree_at n p = Some m -> partitioned m.

(** ** Concrete inputs *)

Definition elt (tag : string) (attrs : list (string * string)) (kids : list Src) : Src :=
  mkSrc (Some tag) (Some ""%string) (NamedNodeMap attrs) kids.

(** <html><head></head><body><div><p></p></div><img></body></html> *)
Definition sample_doc : Src :=
  elt "HTML" [] [elt "HEAD" [] [];
                 elt "BODY" [] [elt "DIV" [] [elt "P" [] []]; elt "IMG" [] []]].

Definition canvas0 : Canvas := mkCanvas 400 300.

Definition world0 : World := mkWorld None None [] 0 0 0 [].

Definition emptySnap : Snap :=
  mkSnap 0 None None None None [] 0 UndefinedAttrs 0 0 0 None None None.

Definition node_at (d : DOMLike) (p : list nat) : Snap :=
  match subtree_at (root d) p with Some n => n | None => emptySnap end.

Definition sample_tree : DOMLike := fst (createDOMLikeObject sample_doc 0 400 0).
Definition sample_body : Snap := node_at sample_tree [1%nat].
Definition sample_div : Snap := node_at sample_tree [1%nat; 0%nat].

(** The page after [drawDOM(canvas0, sample_doc)], and the four clicks of a
    drill-down / drill-up session: on BODY, on the DIV of the BODY view,
    then twice on the back arrow. *)
Definition world1 : World := drawDOM canvas0 (JsHTMLDocument sample_doc) world0.
Definition click_body : MouseEvent := mkMouseEvent 300 95.
Definition click_div : MouseEvent := mkMouseEvent 100 120.
Definition click_back : MouseEvent := mkMouseEvent 5 5.
Definition click_empty : MouseEvent := mkMouseEvent 5 290.

(** <body><img><a href=""></a><a></a></body> *)
Definition link_doc : Src :=
  elt "BODY" [] [elt "IMG" [] []; elt "A" [("href"%string, ""%string)] []; elt "A" [] []].
Definition link_snapshot : DOMLike := fst (createDOMLikeObject link_doc 0 400 0).

(** ** Reading a built tree in document order *)

(** The nodes of a snapshot tree in document (pre-)order. *)
Fixpoint nodes (n : Snap) : list Snap :=
  match n with
  | mkSnap _ _ _ _ _ kids _ _ _ _ _ _ _ _ => n :: flat_map nodes kids
  end.

(** The nodes of a snapshot tree in the order [drawNodes] finishes them
    (post-order: the children first). *)
Fixpoint post (n : Snap) : list Snap :=
  match n with
  | mkSnap _ _ _ _ _ kids _ _ _ _ _ _ _ _ => flat_map post kids ++ [n]
  end.

(** The nodes of a source tree in document order. *)
Fixpoint src_nodes (n : Src) : list Src :=
  match n with
  | mkSrc _ _ _ kids => n :: flat_map src_nodes kids
  end.

(** What one visit of [traverseDomNodes] does to [docParams]: the visit of
    the source node [fst p], built as the snapshot node [snd p]. *)
Definition index_step (acc : DocParams) (p : Src * Snap) : DocParams :=
  register_tag (fst p) (nid (snd p))
    (register_id (fst p) (nid (snd p)) (bump_depth (depth (snd p)) acc)).

(** The fields a built node takes from its source node. *)
Definition mirrors (s : Src) (m : Snap) : Prop :=
  tagName m = src_tagName s /\
  id_ m = (if truthy_str (src_id s) then src_id s else None) /\
  attributes m = copy_attributes (src_attributes s) /\
  childElementCount m = length (src_children s) /\
  length (children m) = length (src_children s).

(** The references a node holds to and from its children: the count, the
    first and last child, and each child's parent, depth and siblings. *)
Definition linked (m : Snap) : Prop :=
  childElementCount m = length (children m) /\
  firstElementChild m = hd_error (map nid (children m)) /\
  lastElementChild m = hd_error (rev (map nid (children m))) /\
  forall i c, nth_error (children m) i = Some c ->
    parentNode c = Some (nid m) /\ depth c = S (depth m) /\
    previousElementSibling c =
      match i with O => None | S j => nth_error (map nid (children m)) j end /\
    nextElementSibling c = nth_error (map nid (children m)) (S i).

(** A tag test on a node. *)
Definition has_tag (t : string) (m : Snap) : bool :=
  match tagName m with Some t' => String.eqb t' t | None => false end.

(** The nodes of [l] with [id] [k]. *)
Definition with_id (k : string) (l : list Snap) : list Snap :=
  filter (fun m => match id_ m with Some k' => String.eqb k' k | None => false end) l.

(** The reference held by the last node of [l], or [dflt] when [l] is empty. *)
Definition last_ref (l : list Snap) (dflt : option nat) : option nat :=
  match rev l with m :: _ => Some (nid m) | [] => dflt end.

(** A source node taken from a live DOM: its attributes are a [NamedNodeMap]. *)
Definition live (s : Src) : Prop :=
  match src_attributes s with NamedNodeMap _ => True | _ => False end.

(** The [href] key is set on a (copied) attribute object. *)
Definition has_href (a : Attrs) : bool :=
  match a with
  | NamedNodeMap l | PlainAttrs l =>
      match assoc_get "href" l with Some _ => true | None => false end
  | UndefinedAttrs => false
  end.

(** The nodes [docRefTagsMap] puts in [links] on a live DOM. *)
Definition is_link (m : Snap) : bool :=
  (has_tag "A" m || has_tag "AREA" m) && has_href (attributes m).

(** The part of a node that a rebuild can see: tag, [id], attribute object
    and children. *)
Inductive Shape := mkShape {
  sh_tag : option string;
  sh_id : option string;
  sh_attrs : Attrs;
  sh_kids : list Shape
}.

Fixpoint shape (n : Snap) : Shape :=
  match n with
  | mkSnap _ _ _ _ _ kids _ attrs _ _ _ tag _ i => mkShape tag i attrs (map shape kids)
  end.

(** The [stroke] calls in a list of drawing calls. *)
Definition is_stroke (c : Call) : bool := match c with Stroke => true | _ => false end.

(** What one call [traverseDomNodes node pn d start end st] returns, as the
    traversal invariant: the new node's own references, the allocation of
    one identity per source node in document order, the fields each node
    takes from its source node, the visits to [docParams], and the
    references between the nodes. *)
Definition built_ok (node : Src) (pn : option nat) (d : nat) (st : BState)
  (r : Snap * BState) : Prop :=
  let sn := fst r in
  let st' := snd r in
  nid sn = nextObj st /\ parentNode sn = pn /\ depth sn = d /\
  previousElementSibling sn = None /\ nextElementSibling sn = None /\
  map nid (nodes sn) = seq (nextObj st) (length (nodes sn)) /\
  nextObj st' = (nextObj st + length (nodes sn))%nat /\
  Forall2 mirrors (src_nodes node) (nodes sn) /\
  docParams st' = fold_left index_step (combine (src_nodes node) (nodes sn)) (docParams st) /\
  Forall linked (nodes sn).

(** [x] is [y] with its sibling references rebound. *)
Definition resib (x y : Snap) : Prop := exists a b, x = set_siblings y a b.

(** The [Shape] of the snapshot that [traverseDomNodes] builds from a
    source node: the [id] is kept when truthy, the attributes are copied. *)
Fixpoint src_shape (s : Src) : Shape :=
  match s with
  | mkSrc tag i attrs kids =>
      mkShape tag (if truthy_str i then i else None) (copy_attributes attrs) (map src_shape kids)
  end.

(** A node as [traverseDomNodes] leaves it: its attribute object is no
    longer a [NamedNodeMap], and its [id] is null or a non-empty string. *)
Definition clean (m : Snap) : Prop :=
  match attributes m with NamedNodeMap _ => False | _ => True end /\
  id_ m = (if truthy_str (id_ m) then id_ m else None).

(** The calls of [drawNodes] that paint (fill styles, arcs, fills, text),
    as opposed to the line paths. *)
Definition is_paint (c : Call) : bool :=
  match c with FillStyle _ | Arc _ _ _ | Fill | FillText _ _ _ => true | _ => false end.

(** The painting calls [drawNodes] issues for the node [m] itself: its
    marker, then its label when the tag is a visible one. *)
Definition node_marks (m : Snap) (height : Q) : list Call :=
  [FillStyle (nodeColorMap (tagName m)); Arc (centerX m) (centerY m height) radius; Fill]
  ++ match nodesWithVisibleTags (tagName m) with
     | Some t => [FillStyle "#000"; FillText t (centerX m + 5) (centerY m height - 5)]
     | None => []
     end.

(** The strokes of the sibling line [drawNodes] draws under [m]: one when
    the first and last child references name two different children. *)
Definition sib_strokes (m : Snap) : nat :=
  match deref (children m) (firstElementChild m), deref (children m) (lastElementChild m) with
  | Some f, Some l => if Nat.eqb (nid f) (nid l) then O else 1%nat
  | _, _ => O
  end.

(** [drawNodes] of src/public/javascripts/drawDOM.js: the same drawing
    without the sibling line. *)
Module DrawDOMjs.
Fixpoint drawNodes (node : Snap) (height : Q) : list Call :=
  match node with
  | mkSnap _ _ _ _ _ kids _ _ _ _ _ tag _ _ =>
    let x := centerX node in
    let y := centerY node height in
    flat_map (fun child =>
         [BeginPath; MoveTo x y; LineTo (centerX child) (centerY child height);
          Stroke; ClosePath] ++ drawNodes child height) kids
    ++ [BeginPath; FillStyle (nodeColorMap tag); Arc x y radius; Fill]
    ++ match nodesWithVisibleTags tag with
       | Some t => [FillStyle "#000"; FillText t (x + 5) (y - 5)]
       | None => []
       end
  end.
End DrawDOMjs.

(** A node with at least two children. *)
Definition two_plus (m : Snap) : bool := (2 <=? length (children m))%nat.

(** The row height used for hit-testing is the one the current tree is
    drawn with: [height / (largestDepth + 1)]. *)
Definition view_consistent (w : World) : Prop :=
  match ctx w, currentTree w with
  | Some cv, Some cur => cellHeight w = height cv / qn (S (largestDepth (params cur)))
  | _, _ => True
  end.

(** ** Basic facts *)

Section SrcInduction.
Variable P : Src -> Prop.
Hypothesis Hnode : forall t i a cs, Forall P cs -> P (mkSrc t i a cs).

Fixpoint src_ind' (s : Src) : P s :=
  match s with
  | mkSrc t i a cs =>
      Hnode t i a cs
        ((fix go (l : list Src) : Forall P l :=
            match l with
            | [] => Forall_nil P
            | c :: l' => @Forall_cons _ P c l' (src_ind' c) (go l')
            end) cs)
  end.
End SrcInduction.

Section SnapInduction.
Variable P : Snap -> Prop.
Hypothesis Hnode : forall o f l nx pv cs cnt a d e s t pn i,
  Forall P cs -> P (mkSnap o f l nx pv cs cnt a d e s t pn i).

Fixpoint snap_ind' (n : Snap) : P n :=
  match n with
  | mkSnap o f l nx pv cs cnt a d e s t pn i =>
      Hnode o f l nx pv cs cnt a d e s t pn i
        ((fix go (l : list Snap) : Forall P l :=
            match l with
            | [] => Forall_nil P
            | c :: l' => @Forall_cons _ P c l' (snap_ind' c) (go l')
            end) cs)
  end.
End SnapInduction.

Lemma AllPart_iff n :
  AllPart n <->
  partitioned n /\ (forall i c, nth_error (children n) i = Some c -> AllPart c).
Proof.
  split.
  - intros H. split.
    + apply (H []). reflexivity.
    + intros i c Hc p m Hm. apply (H (i :: p)). simpl. rewrite Hc. exact Hm.
  - intros [Hp Hc] [|i p] m Hm; simpl in Hm.
    + injection Hm as <-. exact Hp.
    + destruct (nth_error (children n) i) as [c|] eqn:E; [|discriminate].
      exact (Hc i c E p m Hm).
Qed.

Lemma bind_siblings_length prev cs : length (bind_siblings prev cs) = length cs.
Proof. revert prev; induction cs; intros; simpl; auto. Qed.

Lemma bind_siblings_nth prev cs j c' :
  nth_error (bind_siblings prev cs) j = Some c' ->
  exists c a b, nth_error cs j = Some c /\ c' = set_siblings c a b.
Proof.
  revert prev j; induction cs as [|c cs IH]; intros prev j H; simpl in H.
  - destruct j; discriminate.
  - destruct j as [|j]; simpl in H.
    + injection H as <-. do 3 eexists; split; reflexivity.
    + exact (IH _ _ H).
Qed.

Lemma partitioned_set_siblings c a b :
  partitioned (set_siblings c a b) <-> partitioned c.
Proof. destruct c; reflexivity. Qed.

Lemma AllPart_set_siblings c a b : AllPart (set_siblings c a b) <-> AllPart c.
Proof.
  rewrite !AllPart_iff, partitioned_set_siblings. destruct c; reflexivity.
Qed.

Lemma AllPart_set_nid c o : AllPart (set_nid c o) <-> AllPart c.
Proof. rewrite !AllPart_iff. destruct c; reflexivity. Qed.

(** The loop lays the children out one [width] apart, starting at [i]. *)
Lemma traverse_children_geo cs :
  Forall (fun c => forall pn d s e st,
            let sn := fst (traverseDomNodes c pn d s e st) in
            start sn = s /\ end_ sn = e /\ AllPart sn) cs ->
  forall me cd s w i st,
  let out := fst (traverse_children traverseDomNodes me cd s w cs i st) in
  length out = length cs /\
  forall j c, nth_error out j = Some c ->
    start c = s + qn (i + j)%nat * w /\ end_ c = start c + w /\ AllPart c.
Proof.
  induction cs as [|c0 cs IH]; intros HF me cd s w i st; simpl.
  - split; [reflexivity|]. intros [|j] c H; discriminate.
  - inversion HF as [|? ? Hc0 HFcs]; subst.
    destruct (traverseDomNodes c0 me cd (s + qn i * w) (s + qn i * w + w) st)
      as [child st1] eqn:E1.
    destruct (traverse_children traverseDomNodes me cd s w cs (S i) st1)
      as [rest st2] eqn:E2.
    simpl.
    specialize (IH HFcs me cd s w (S i) st1). rewrite E2 in IH. simpl in IH.
    destruct IH as [IHlen IHnth].
    split; [simpl; congruence|].
    intros [|j] c H; simpl in H.
    + injection H as <-.
      specialize (Hc0 me cd (s + qn i * w) (s + qn i * w + w) st).
      rewrite E1 in Hc0. simpl in Hc0. destruct Hc0 as (Hs & He & Ha).
      rewrite Nat.add_0_r. split; [exact Hs|split; [rewrite He, Hs; reflexivity|exact Ha]].
    + destruct (IHnth j c H) as (Hs & He & Ha).
      rewrite Nat.add_succ_r. exact (conj Hs (conj He Ha)).
Qed.

(** Every snapshot node is laid out as the builder says. *)
Lemma traverse_geo node :
  forall pn d s e st,
  let sn := fst (traverseDomNodes node pn d s e st) in
  start sn = s /\ end_ sn = e /\ AllPart sn.
Proof.
  induction node as [t i a cs IH] using src_ind'.
  intros pn d s e st. simpl.
  set (st1 := mkBState _ _ _).
  pose proof (traverse_children_geo cs IH (Some (nextObj st)) (S d) s
                ((e - s) / qn (length cs)) 0 st1) as HL.
  destruct (traverse_children traverseDomNodes (Some (nextObj st)) (S d) s
              ((e - s) / qn (length cs)) cs 0 st1) as [kids st2].
  simpl in HL |- *. destruct HL as [Hlen Hnth].
  split; [reflexivity|split; [reflexivity|]].
  apply AllPart_iff. split.
  - intros j ch Hj. simpl in Hj |- *.
    destruct (bind_siblings_nth _ _ _ _ Hj) as (c0 & a' & b' & Hc0 & ->).
    destruct (Hnth j c0 Hc0) as (Hs & He & _).
    unfold childWidth. simpl. rewrite bind_siblings_length, Hlen.
    destruct c0; simpl in *. split; assumption.
  - intros j ch Hj. simpl in Hj.
    destruct (bind_siblings_nth _ _ _ _ Hj) as (c0 & a' & b' & Hc0 & ->).
    apply AllPart_set_siblings. apply (Hnth j c0 Hc0).
Qed.

Lemma qn_le a b : (a <= b)%nat -> qn a <= qn b.
Proof. intros H. unfold qn. rewrite <- Zle_Qle. lia. Qed.

Lemma qn_lt a b : (a < b)%nat -> qn a < qn b.
Proof. intros H. unfold qn. rewrite <- Zlt_Qlt. lia. Qed.

Lemma qn_S a : qn (S a) == qn a + 1.
Proof. unfold qn. rewrite Nat2Z.inj_succ, <- Z.add_1_r, inject_Z_plus. reflexivity. Qed.

(** The children of a laid-out node with [start <= end]: equal,
    non-negative widths filling [start, end). *)
Lemma child_layout n j c :
  partitioned n -> start n <= end_ n ->
  nth_error (children n) j = Some c ->
  0 <= childWidth n /\
  qn (length (children n)) * childWidth n == end_ n - start n /\
  start c == start n + qn j * childWidth n /\
  end_ c == start n + qn (S j) * childWidth n /\
  (j < length (children n))%nat.
Proof.
  intros Hp Hle Hc.
  assert (Hj : (j < length (children n))%nat)
    by (apply nth_error_Some; rewrite Hc; discriminate).
  assert (Hk : 0 < qn (length (children n))) by (apply (qn_lt 0); lia).
  destruct (Hp j c Hc) as [Hs He].
  unfold childWidth in *.
  set (k := qn (length (children n))) in *.
  split; [|split; [|split; [|split]]]; try assumption.
  - apply Qle_shift_div_l; [exact Hk|]. rewrite Qmult_0_l. lra.
  - field. intros H0. rewrite H0 in Hk. discriminate.
  - rewrite Hs. reflexivity.
  - rewrite He, Hs, qn_S. ring.
Qed.

(** A child's range lies inside its parent's. *)
Lemma child_bounds n j c :
  partitioned n -> start n <= end_ n ->
  nth_error (children n) j = Some c ->
  start n <= start c /\ start c <= end_ c /\ end_ c <= end_ n.
Proof.
  intros Hp Hle Hc.
  destruct (child_layout n j c Hp Hle Hc) as (Hw & Hkw & Hs & He & Hj).
  pose proof (qn_le 0 j ltac:(lia)) as H0.
  pose proof (qn_le (S j) (length (children n)) Hj) as H1.
  set (w := childWidth n) in *.
  set (k := qn (length (children n))) in *.
  rewrite qn_S in He, H1. unfold qn at 1 in H0. simpl in H0.
  assert (P1 : 0 <= qn j * w) by (apply Qmult_le_0_compat; assumption).
  assert (P2 : 0 <= (k - (qn j + 1)) * w) by (apply Qmult_le_0_compat; lra).
  split; [|split]; lra.
Qed.

(** Every node of a laid-out tree lies inside the root's range. *)
Lemma subtree_bounds n p m :
  AllPart n -> start n <= end_ n -> subtree_at n p = Some m ->
  start n <= start m /\ start m <= end_ m /\ end_ m <= end_ n /\ AllPart m.
Proof.
  revert n; induction p as [|i p IH]; intros n Ha Hle Hm; simpl in Hm.
  - injection Hm as <-. split; [lra|split; [lra|split; [lra|exact Ha]]].
  - destruct (nth_error (children n) i) as [c|] eqn:E; [|discriminate].
    apply AllPart_iff in Ha as Ha'. destruct Ha' as [Hp Hch].
    destruct (child_bounds n i c Hp Hle E) as (H1 & H2 & H3).
    destruct (IH c (Hch i c E) H2 Hm) as (G1 & G2 & G3 & G4).
    split; [lra|split; [lra|split; [lra|exact G4]]].
Qed.

Lemma root_geo src s e hp :
  let r := root (fst (createDOMLikeObject src s e hp)) in
  start r = s /\ end_ r = e /\ AllPart r.
Proof.
  unfold createDOMLikeObject.
  pose proof (traverse_geo src None 0 s e (mkBState initDocParams hp [])) as H.
  destruct (traverseDomNodes src None 0 s e (mkBState initDocParams hp []))
    as [nd st]. simpl in *. destruct H as (Hs & He & Ha).
  split; [|split].
  - destruct nd; exact Hs.
  - destruct nd; exact He.
  - apply AllPart_set_nid. exact Ha.
Qed.

Lemma built_bounds src s e hp p m :
  s <= e ->
  subtree_at (root (fst (createDOMLikeObject src s e hp))) p = Some m ->
  s <= start m /\ start m <= end_ m /\ end_ m <= e /\ AllPart m.
Proof.
  intros Hle Hm.
  destruct (root_geo src s e hp) as (Hs & He & Ha).
  assert (Hr : start (root (fst (createDOMLikeObject src s e hp)))
               <= end_ (root (fst (createDOMLikeObject src s e hp)))) by (rewrite Hs, He; exact Hle).
  pose proof (subtree_bounds _ p m Ha Hr Hm) as H.
  rewrite Hs, He in H. exact H.
Qed.

(** ** C1: the children's intervals partition the parent's *)

(** C1. In every tree built by [createDOMLikeObject] over [start, end) with
    [start <= end], every node [N] with [k >= 1] children gives them
    equal-width, non-negative intervals of width [(end N - start N) / k];
    consecutive children are contiguous, earlier children end before later
    ones start, the first starts at [start N] and the last ends at [end N];
    a single child gets [N]'s whole interval. *)
Theorem createDOMLikeObject_partition :
  forall (src : Src) (s0 e0 : Q) (hp : nat) (p : list nat) (N : Snap),
  s0 <= e0 ->
  subtree_at (root (fst (createDOMLikeObject src s0 e0 hp))) p = Some N ->
  (1 <= length (children N))%nat ->
  (forall i c, nth_error (children N) i = Some c ->
     end_ c - start c == (end_ N - start N) / qn (length (children N)) /\
     0 <= end_ c - start c) /\
  (forall i c c', nth_error (children N) i = Some c ->
     nth_error (children N) (S i) = Some c' -> end_ c == start c') /\
  (forall i j c c', (i < j)%nat -> nth_error (children N) i = Some c ->
     nth_error (children N) j = Some c' -> end_ c <= start c') /\
  (forall c, nth_error (children N) 0 = Some c -> start c == start N) /\
  (forall c, nth_error (children N) (length (children N) - 1) = Some c ->
     end_ c == end_ N) /\
  (length (children N) = 1%nat -> forall c, nth_error (children N) 0 = Some c ->
     start c == start N /\ end_ c == end_ N).
Proof.
  intros src s0 e0 hp p N Hle HN Hk.
  destruct (built_bounds src s0 e0 hp p N Hle HN) as (_ & HNle & _ & HA).
  apply AllPart_iff in HA. destruct HA as [Hp _].
  assert (First : forall c, nth_error (children N) 0 = Some c -> start c == start N).
  { intros c Hc. destruct (child_layout N 0 c Hp HNle Hc) as (_ & _ & Hs & _).
    rewrite Hs. unfold qn. simpl. ring. }
  assert (Last : forall c, nth_error (children N) (length (children N) - 1) = Some c ->
                 end_ c == end_ N).
  { intros c Hc. destruct (child_layout N _ c Hp HNle Hc) as (_ & Hkw & _ & He & _).
    replace (S (length (children N) - 1)) with (length (children N)) in He by lia.
    rewrite He, Hkw. ring. }
  split; [|split; [|split; [|split; [|split]]]].
  - intros i c Hc. destruct (child_layout N i c Hp HNle Hc) as (Hw & _ & Hs & He & _).
    rewrite Hs, He, qn_S. unfold childWidth in *.
    split; [ring|]. setoid_replace (start N + (qn i + 1) * ((end_ N - start N) /
      qn (length (children N))) - (start N + qn i * ((end_ N - start N) /
      qn (length (children N))))) with ((end_ N - start N) / qn (length (children N)))
      by ring. exact Hw.
  - intros i c c' Hc Hc'.
    destruct (child_layout N i c Hp HNle Hc) as (_ & _ & _ & He & _).
    destruct (child_layout N (S i) c' Hp HNle Hc') as (_ & _ & Hs' & _ & _).
    rewrite He, Hs'. reflexivity.
  - intros i j c c' Hij Hc Hc'.
    destruct (child_layout N i c Hp HNle Hc) as (Hw & _ & _ & He & _).
    destruct (child_layout N j c' Hp HNle Hc') as (_ & _ & Hs' & _ & _).
    rewrite He, Hs'. pose proof (qn_le (S i) j Hij) as Hq.
    assert (0 <= (qn j - qn (S i)) * childWidth N) by (apply Qmult_le_0_compat; lra).
    lra.
  - exact First.
  - exact Last.
  - intros H1 c Hc. split; [exact (First c Hc)|].
    apply Last. rewrite H1. exact Hc.
Qed.

(** ** The hit-tester *)

Lemma Qltb_iff a b : Qltb a b = true <-> a < b.
Proof.
  unfold Qltb. destruct (Qle_bool b a) eqn:E; simpl.
  - apply Qle_bool_iff in E. split; [discriminate|]. intros H. exfalso.
    exact (Qlt_not_le _ _ H E).
  - split; [intros _|reflexivity]. apply Qnot_le_lt. intros H.
    apply Qle_bool_iff in H. congruence.
Qed.

Lemma Qleb_iff a b : Qleb a b = true <-> a <= b.
Proof. apply Qle_bool_iff. Qed.

Lemma inRange_iff x c : inRange x c = true <-> start c < x /\ x < end_ c.
Proof.
  unfold inRange. rewrite andb_true_iff, !Qltb_iff. reflexivity.
Qed.

Lemma inRange_false x c : ~ (start c < x /\ x < end_ c) -> inRange x c = false.
Proof.
  intros H. destruct (inRange x c) eqn:E; [|reflexivity].
  exfalso. apply H, inRange_iff, E.
Qed.

Lemma isInNode_iff ch n x y :
  isInNode ch n x y = true <->
  Qabs (x - centerX n) <= radius /\ Qabs (y - centerY n ch) <= radius.
Proof.
  unfold isInNode, centerX, centerY.
  rewrite !andb_true_iff, !Qleb_iff, !Qabs_Qle_condition.
  split; intros H; lra.
Qed.

Lemma search_unfold ch n x y :
  searchForNodeWithXY ch n x y =
  if isInNode ch n x y then Some n
  else search_children (fun c => searchForNodeWithXY ch c x y) x (children n).
Proof. destruct n; reflexivity. Qed.

(** The loop returns the search in the first child whose range holds [x]. *)
Lemma search_children_pick f x cs i c :
  nth_error cs i = Some c -> inRange x c = true ->
  (forall j c', (j < i)%nat -> nth_error cs j = Some c' -> inRange x c' = false) ->
  search_children f x cs = f c.
Proof.
  revert i; induction cs as [|c0 cs IH]; intros i Hc Hin Hbefore.
  - destruct i; discriminate.
  - simpl. destruct i as [|i]; simpl in Hc.
    + injection Hc as ->. rewrite Hin. reflexivity.
    + rewrite (Hbefore 0%nat c0 ltac:(lia) eq_refl).
      apply (IH i Hc Hin). intros j c' Hj Hc'.
      apply (Hbefore (S j) c'); [lia|exact Hc'].
Qed.

Lemma search_children_none f x cs :
  (forall j c, nth_error cs j = Some c -> inRange x c = false) ->
  search_children f x cs = None.
Proof.
  induction cs as [|c0 cs IH]; intros H; simpl; [reflexivity|].
  rewrite (H 0%nat c0 eq_refl). apply IH. intros j c Hc. exact (H (S j) c Hc).
Qed.

(** Earlier children end before later ones start. *)
Lemma child_order n i j c c' :
  partitioned n -> start n <= end_ n -> (i < j)%nat ->
  nth_error (children n) i = Some c -> nth_error (children n) j = Some c' ->
  end_ c <= start c'.
Proof.
  intros Hp Hle Hij Hc Hc'.
  destruct (child_layout n i c Hp Hle Hc) as (Hw & _ & _ & He & _).
  destruct (child_layout n j c' Hp Hle Hc') as (_ & _ & Hs' & _ & _).
  rewrite He, Hs'. pose proof (qn_le (S i) j Hij) as Hq.
  assert (0 <= (qn j - qn (S i)) * childWidth n) by (apply Qmult_le_0_compat; lra).
  lra.
Qed.

(** Descent: when no marker box on the way holds the point, and [x] is
    strictly inside the range of the node at [p], the search from [n] is
    the search from that node. *)
Lemma search_descend ch n p m x y :
  AllPart n -> start n <= end_ n -> subtree_at n p = Some m ->
  start m < x -> x < end_ m ->
  Forall (fun a => isInNode ch a x y = false) (ancestors_at n p) ->
  searchForNodeWithXY ch n x y = searchForNodeWithXY ch m x y.
Proof.
  revert n; induction p as [|i p IH]; intros n Ha Hle Hm Hx1 Hx2 Hanc; simpl in Hm.
  - injection Hm as <-. reflexivity.
  - simpl in Hanc.
    destruct (nth_error (children n) i) as [c|] eqn:E; [|discriminate].
    inversion Hanc as [|? ? Hn Hanc']; subst.
    apply AllPart_iff in Ha as Ha'. destruct Ha' as [Hp Hch].
    destruct (child_bounds n i c Hp Hle E) as (_ & Hcle & _).
    destruct (subtree_bounds c p m (Hch i c E) Hcle Hm) as (B1 & _ & B3 & _).
    rewrite search_unfold, Hn.
    rewrite (search_children_pick _ x (children n) i c E).
    + apply (IH c (Hch i c E) Hcle Hm Hx1 Hx2 Hanc').
    + apply inRange_iff. split; lra.
    + intros j c' Hj Hc'. apply inRange_false. intros [H1 H2].
      pose proof (child_order n j i c' c Hp Hle Hj Hc' E). lra.
Qed.


Lemma search_children_some f x cs m :
  search_children f x cs = Some m ->
  exists i c, nth_error cs i = Some c /\ f c = Some m.
Proof.
  induction cs as [|c0 cs IH]; simpl; intros H; [discriminate|].
  destruct (inRange x c0).
  - exists 0%nat, c0. split; [reflexivity|exact H].
  - destruct (IH H) as (i & c & Hc & Hf). exists (S i), c. split; assumption.
Qed.

(** A root whose range is empty has only children with empty ranges. *)
Lemma degenerate_up n p m :
  AllPart n -> start n <= end_ n -> subtree_at n p = Some m ->
  (1 <= length (children m))%nat -> childWidth m == 0 ->
  end_ n - start n == 0.
Proof.
  revert n; induction p as [|i p IH]; intros n Ha Hle Hm Hk Hw; simpl in Hm.
  - injection Hm as <-.
    destruct (children n) as [|c cs] eqn:Ec; [simpl in Hk; lia|].
    apply AllPart_iff in Ha. destruct Ha as [Hp _].
    assert (E0 : nth_error (children n) 0 = Some c) by (rewrite Ec; reflexivity).
    destruct (child_layout n 0 c Hp Hle E0) as (_ & Hkw & _).
    rewrite <- Hkw, Hw. ring.
  - destruct (nth_error (children n) i) as [c|] eqn:E; [|discriminate].
    apply AllPart_iff in Ha as Ha'. destruct Ha' as [Hp Hch].
    destruct (child_bounds n i c Hp Hle E) as (_ & Hcle & _).
    pose proof (IH c (Hch i c E) Hcle Hm Hk Hw) as Hc0.
    destruct (child_layout n i c Hp Hle E) as (_ & Hkw & Hs & He & _).
    rewrite Hs, He, qn_S in Hc0.
    assert (Hw0 : childWidth n == 0) by lra.
    rewrite <- Hkw, Hw0. ring.
Qed.

(** ** C3: a node is found at its own center *)

Lemma center_inside n : start n < end_ n -> start n < centerX n /\ centerX n < end_ n.
Proof.
  intros H. unfold centerX.
  setoid_replace (start n + (end_ n - start n) / 2)
    with (start n + (end_ n - start n) * (1#2)) by field.
  split; lra.
Qed.

(** C3. For a node [N] of a tree built by [createDOMLikeObject] over
    [start <= end], with [start N < end N], the search from the root at
    [N]'s center [(start + (end - start)/2, depth * cellHeight + 20)]
    returns [N], provided no node tested before it on the way down (its
    ancestors) has a marker box holding that point. *)
Theorem search_finds_own_center :
  forall (src : Src) (s0 e0 : Q) (hp : nat) (ch : Q) (p : list nat) (N : Snap),
  s0 <= e0 ->
  subtree_at (root (fst (createDOMLikeObject src s0 e0 hp))) p = Some N ->
  start N < end_ N ->
  Forall (fun a => isInNode ch a (centerX N) (centerY N ch) = false)
    (ancestors_at (root (fst (createDOMLikeObject src s0 e0 hp))) p) ->
  searchForNodeWithXY ch (root (fst (createDOMLikeObject src s0 e0 hp)))
    (centerX N) (centerY N ch) = Some N.
Proof.
  intros src s0 e0 hp ch p N Hle HN Hpos Hanc.
  destruct (root_geo src s0 e0 hp) as (Hs & He & Ha).
  rewrite (search_descend ch _ p N _ _ Ha ltac:(rewrite Hs, He; exact Hle) HN);
    [| apply center_inside; exact Hpos | apply center_inside; exact Hpos | exact Hanc].
  rewrite search_unfold.
  assert (Hin : isInNode ch N (centerX N) (centerY N ch) = true).
  { apply isInNode_iff. unfold radius.
    setoid_replace (centerX N - centerX N) with 0 by ring.
    setoid_replace (centerY N ch - centerY N ch) with 0 by ring.
    split; apply Qabs_Qle_condition; lra. }
  rewrite Hin. reflexivity.
Qed.

(** ** C4: a point on a shared boundary matches no child *)

(** C4. In a tree built by [createDOMLikeObject] over [start <= end], let
    [N] have adjacent children [c_k], [c_(k+1)] and let [x] be their shared
    boundary [end c_k].  Neither child's range test holds at [x], and when
    no marker box on the way down to [N], [N]'s included, holds the point,
    the search from the root returns [None]. *)
Theorem search_boundary_none :
  forall (src : Src) (s0 e0 : Q) (hp : nat) (ch : Q) (p : list nat) (N : Snap)
         (k : nat) (ck ck1 : Snap) (x y : Q),
  s0 <= e0 ->
  subtree_at (root (fst (createDOMLikeObject src s0 e0 hp))) p = Some N ->
  nth_error (children N) k = Some ck ->
  nth_error (children N) (S k) = Some ck1 ->
  x == end_ ck ->
  Forall (fun a => isInNode ch a x y = false)
    (ancestors_at (root (fst (createDOMLikeObject src s0 e0 hp))) p ++ [N]) ->
  inRange x ck = false /\ inRange x ck1 = false /\
  searchForNodeWithXY ch (root (fst (createDOMLikeObject src s0 e0 hp))) x y = None.
Proof.
  intros src s0 e0 hp ch p N k ck ck1 x y Hle HN Hk Hk1 Hx Hanc.
  set (R := root (fst (createDOMLikeObject src s0 e0 hp))) in *.
  destruct (root_geo src s0 e0 hp) as (Hs & He & Ha). fold R in Hs, He, Ha.
  assert (HRle : start R <= end_ R) by (rewrite Hs, He; exact Hle).
  destruct (subtree_bounds R p N Ha HRle HN) as (_ & HNle & _ & HNa).
  apply AllPart_iff in HNa as HNa'. destruct HNa' as [Hp _].
  destruct (child_layout N k ck Hp HNle Hk) as (Hw & _ & Hs0 & He0 & _).
  destruct (child_layout N (S k) ck1 Hp HNle Hk1) as (_ & _ & Hs1 & He1 & _).
  rewrite qn_S in He0, Hs1, He1.
  (* the boundary is [start ck1] *)
  assert (Hx1 : x == start ck1) by (rewrite Hx, He0, Hs1; reflexivity).
  assert (Nk : inRange x ck = false) by (apply inRange_false; lra).
  assert (Nk1 : inRange x ck1 = false) by (apply inRange_false; lra).
  split; [exact Nk|split; [exact Nk1|]].
  apply Forall_app in Hanc. destruct Hanc as [Hanc HNbox].
  apply Forall_cons_iff in HNbox. destruct HNbox as [HNb _].
  (* no child of [N] holds [x] *)
  assert (Hnone : forall j c, nth_error (children N) j = Some c -> inRange x c = false).
  { intros j c Hc. apply inRange_false. intros [H1 H2].
    destruct (Nat.lt_trichotomy j k) as [Hj|[->|Hj]].
    - pose proof (child_order N j k c ck Hp HNle Hj Hc Hk). lra.
    - rewrite Hk in Hc. injection Hc as <-. lra.
    - destruct (Nat.eq_dec j (S k)) as [->|Hj'].
      + rewrite Hk1 in Hc. injection Hc as <-. lra.
      + destruct (child_layout N (S k) ck1 Hp HNle Hk1) as (_ & _ & _ & He2 & _).
        pose proof (child_order N (S k) j ck1 c Hp HNle ltac:(lia) Hk1 Hc).
        destruct (child_bounds N (S k) ck1 Hp HNle Hk1) as (_ & B & _). lra. }
  apply Qle_lteq in Hw. destruct Hw as [Hwpos|Hw0].
  - (* positive width: the search reaches [N], which matches no child *)
    destruct (child_bounds N (S k) ck1 Hp HNle Hk1) as (_ & _ & B).
    destruct (Hp (S k) ck1 Hk1) as [_ Hend].
    assert (Hend' : end_ ck1 == start ck1 + childWidth N) by (rewrite Hend; reflexivity).
    assert (0 <= qn k * childWidth N)
      by (apply Qmult_le_0_compat; [apply (qn_le 0); lia|lra]).
    rewrite (search_descend ch R p N x y Ha HRle HN); [| lra | lra |exact Hanc].
    rewrite search_unfold, HNb. apply search_children_none. exact Hnone.
  - (* zero width: every range of the tree is empty *)
    assert (HN1 : (1 <= length (children N))%nat)
      by (assert (nth_error (children N) k <> None) by congruence;
          apply nth_error_Some in H; lia).
    pose proof (degenerate_up R p N Ha HRle HN HN1 (Qeq_sym _ _ Hw0)) as HR0.
    assert (HRbox : isInNode ch R x y = false).
    { destruct p as [|i p]; simpl in HN, Hanc.
      - injection HN as <-. exact HNb.
      - destruct (nth_error (children R) i); [|discriminate].
        apply Forall_cons_iff in Hanc. apply Hanc. }
    rewrite search_unfold, HRbox. apply search_children_none.
    intros j c Hc. apply inRange_false. intros [H1 H2].
    apply AllPart_iff in Ha. destruct Ha as [HRp _].
    destruct (child_bounds R j c HRp HRle Hc) as (B1 & _ & B3). lra.
Qed.

(** ** C10: the search only returns a node whose marker box holds the point *)

(** C10. [searchForNodeWithXY] returns either [None] or a node of the
    searched tree whose marker center [(cx, cy)] satisfies
    [|x - cx| <= radius] and [|y - cy| <= radius]. *)
Theorem search_sound :
  forall (ch : Q) (n : Snap) (x y : Q),
  searchForNodeWithXY ch n x y = None \/
  exists p m, searchForNodeWithXY ch n x y = Some m /\ subtree_at n p = Some m /\
    Qabs (x - centerX m) <= radius /\ Qabs (y - centerY m ch) <= radius.
Proof.
  intros ch n x y.
  assert (H : forall m, searchForNodeWithXY ch n x y = Some m ->
            (exists p, subtree_at n p = Some m) /\ isInNode ch m x y = true).
  { induction n as [o f l nx pv cs cnt a d e s t pn i IH] using snap_ind'.
    intros m Hm. rewrite search_unfold in Hm.
    destruct (isInNode ch _ x y) eqn:Ein.
    - injection Hm as <-. split; [exists []; reflexivity|exact Ein].
    - destruct (search_children_some _ _ _ _ Hm) as (j & c & Hc & Hf).
      rewrite Forall_forall in IH.
      destruct (IH c (nth_error_In _ _ Hc) m Hf) as [[p Hp] Hb].
      split; [|exact Hb]. exists (j :: p). simpl in Hc |- *. rewrite Hc. exact Hp. }
  destruct (searchForNodeWithXY ch n x y) as [m|] eqn:E; [right|left; reflexivity].
  destruct (H m eq_refl) as [[p Hp] Hb]. apply isInNode_iff in Hb.
  exists p, m. split; [reflexivity|split; [exact Hp|exact Hb]].
Qed.

(** ** The click handler *)

Lemma back_cond_iff x y (s : list DOMLike) :
  (Qltb x 20 && Qltb y 20 && negb (Nat.eqb (length s) 0)) = true <->
  x < 20 /\ y < 20 /\ s <> [].
Proof.
  rewrite !andb_true_iff, !Qltb_iff, negb_true_iff, Nat.eqb_neq.
  split.
  - intros [[H1 H2] H3]. repeat split; auto. intros ->. simpl in H3. congruence.
  - intros (H1 & H2 & H3). repeat split; auto.
    destruct s; [congruence|simpl; discriminate].
Qed.

Lemma click_drill_step ev w cv cur found :
  ctx w = Some cv -> currentTree w = Some cur ->
  ~ (offsetX ev < 20 /\ offsetY ev < 20 /\ treeStack w <> []) ->
  searchForNodeWithXY (cellHeight w) (root cur) (offsetX ev) (offsetY ev) = Some found ->
  let d := fst (createDOMLikeObject (src_of_snap found) 0 (width cv) (heap w)) in
  ctx (handleCanvasClick ev w) = Some cv /\
  currentTree (handleCanvasClick ev w) = Some d /\
  treeStack (handleCanvasClick ev w) = treeStack w ++ [cur] /\
  cellHeight (handleCanvasClick ev w) = height cv / qn (S (largestDepth (params d))).
Proof.
  intros Hctx Hcur Hnb Hs d. unfold handleCanvasClick.
  rewrite Hctx, Hcur.
  destruct (Qltb _ 20 && Qltb _ 20 && negb _) eqn:E.
  { apply back_cond_iff in E. contradiction. }
  rewrite Hs. subst d.
  destruct (createDOMLikeObject (src_of_snap found) 0 (width cv) (heap w)) as [dl h'].
  simpl. repeat split; reflexivity.
Qed.

Lemma click_back_step ev w cv cur :
  ctx w = Some cv -> currentTree w = Some cur ->
  offsetX ev < 20 -> offsetY ev < 20 -> treeStack w <> [] ->
  ctx (handleCanvasClick ev w) = Some cv /\
  currentTree (handleCanvasClick ev w) = Some (last (treeStack w) cur) /\
  treeStack (handleCanvasClick ev w) = removelast (treeStack w).
Proof.
  intros Hctx Hcur Hx Hy Hne. unfold handleCanvasClick.
  rewrite Hctx, Hcur.
  assert (E : (Qltb (offsetX ev) 20 && Qltb (offsetY ev) 20
               && negb (Nat.eqb (length (treeStack w)) 0)) = true)
    by (apply back_cond_iff; auto).
  rewrite E. simpl. repeat split; reflexivity.
Qed.

(** ** C7: drill down twice, drill up twice *)

(** C7. From a rendered page showing [R] with an empty stack: a click whose
    hit-test finds [A] shows the snapshot [SA] rebuilt from [A] and leaves
    the stack [[R]]; a click (off the back corner) finding a child of [SA]
    leaves the stack [[R; SA]]; a click in the back corner
    ([x < 20], [y < 20]) shows [SA] again with stack [[R]]; a second one
    shows [R] with an empty stack. *)
Theorem click_drill_up_scenario :
  forall (w0 : World) (cv : Canvas) (R : DOMLike) (A A' : Snap)
         (e1 e2 e3 e4 : MouseEvent),
  ctx w0 = Some cv -> currentTree w0 = Some R -> treeStack w0 = [] ->
  searchForNodeWithXY (cellHeight w0) (root R) (offsetX e1) (offsetY e1) = Some A ->
  let SA := fst (createDOMLikeObject (src_of_snap A) 0 (width cv) (heap w0)) in
  In A' (children (root SA)) ->
  ~ (offsetX e2 < 20 /\ offsetY e2 < 20) ->
  searchForNodeWithXY (height cv / qn (S (largestDepth (params SA)))) (root SA)
    (offsetX e2) (offsetY e2) = Some A' ->
  offsetX e3 < 20 -> offsetY e3 < 20 -> offsetX e4 < 20 -> offsetY e4 < 20 ->
  let w1 := handleCanvasClick e1 w0 in
  let w2 := handleCanvasClick e2 w1 in
  let w3 := handleCanvasClick e3 w2 in
  let w4 := handleCanvasClick e4 w3 in
  currentTree w1 = Some SA /\ treeStack w1 = [R] /\
  treeStack w2 = [R; SA] /\
  currentTree w3 = Some SA /\ treeStack w3 = [R] /\
  currentTree w4 = Some R /\ treeStack w4 = [].
Proof.
  intros w0 cv R A A' e1 e2 e3 e4 Hctx Hcur Hst HA SA _ He2 HA' Hx3 Hy3 Hx4 Hy4
    w1 w2 w3 w4.
  destruct (click_drill_step e1 w0 cv R A Hctx Hcur
              ltac:(intros (_ & _ & H); contradiction) HA)
    as (C1 & T1 & S1 & H1).
  fold SA in T1, H1. rewrite Hst in S1. simpl in S1.
  fold w1 in C1, T1, S1, H1.
  rewrite <- H1 in HA'.
  destruct (click_drill_step e2 w1 cv SA A' C1 T1
              ltac:(intros (H & H' & _); apply He2; split; assumption) HA')
    as (C2 & T2 & S2 & _).
  fold w2 in C2, T2, S2. rewrite S1 in S2. simpl in S2.
  destruct (click_back_step e3 w2 cv _ C2 T2 Hx3 Hy3 ltac:(rewrite S2; discriminate))
    as (C3 & T3 & S3).
  fold w3 in C3, T3, S3. rewrite S2 in T3, S3. simpl in T3, S3.
  destruct (click_back_step e4 w3 cv _ C3 T3 Hx4 Hy4 ltac:(rewrite S3; discriminate))
    as (_ & T4 & S4).
  fold w4 in T4, S4. rewrite S3 in T4, S4. simpl in T4, S4.
  repeat split; assumption.
Qed.

(** ** C8: a click that hits nothing changes nothing *)

(** C8. A click outside the back corner (or with an empty stack) whose
    hit-test over the current tree finds no node leaves the whole state
    unchanged: the current tree, the stack, and the calls issued on the
    drawing surface. *)
Theorem click_miss_no_change :
  forall (event : MouseEvent) (w : World),
  ~ (offsetX event < 20 /\ offsetY event < 20 /\ treeStack w <> []) ->
  (forall cur, currentTree w = Some cur ->
     searchForNodeWithXY (cellHeight w) (root cur) (offsetX event) (offsetY event) = None) ->
  handleCanvasClick event w = w.
Proof.
  intros event w Hnb Hmiss. unfold handleCanvasClick.
  destruct (ctx w) as [cv|]; [|reflexivity].
  destruct (currentTree w) as [cur|] eqn:Ecur; [|reflexivity].
  destruct (Qltb _ 20 && Qltb _ 20 && negb _) eqn:E.
  { apply back_cond_iff in E. contradiction. }
  rewrite (Hmiss cur eq_refl). reflexivity.
Qed.

(** ** C2: a source node without children *)

(** C2 (counterexample). Building an [<img>] with no children evaluates
    [width = (end - start) / childCount] with [childCount = 0]: the one
    division the builder performs has divisor 0. *)
Lemma traverse_leaf_divides_by_zero :
  divisors (snd (traverseDomNodes (elt "IMG" [] []) None 0 0 400
                   (mkBState initDocParams 0 []))) = [0%nat].
Proof. reflexivity. Qed.

(** C2 (amended). For a source node with no children the builder still
    evaluates the division by [childCount = 0] (one division, divisor 0,
    whose result is never used: the loop runs zero times), allocates no
    child, and returns a node with empty [children], [childElementCount = 0]
    and [firstElementChild = lastElementChild = null]. *)
Theorem traverse_leaf :
  forall (node : Src) (pn : option nat) (d : nat) (s e : Q) (st : BState),
  src_children node = [] ->
  let sn := fst (traverseDomNodes node pn d s e st) in
  let st' := snd (traverseDomNodes node pn d s e st) in
  children sn = [] /\ childElementCount sn = 0%nat /\
  firstElementChild sn = None /\ lastElementChild sn = None /\
  divisors st' = divisors st ++ [0%nat] /\ nextObj st' = S (nextObj st).
Proof.
  intros [t i a cs] pn d s e st H. simpl in H. subst cs.
  repeat split; reflexivity.
Qed.

(** ** C5: [drawDOM] on a value that is not a document *)

(** The guard [!myDocument instanceof HTMLDocument] tests a boolean, which
    is never an instance of [HTMLDocument]. *)
Lemma drawDOM_guard_never_fires v : instanceof_HTMLDocument (js_not v) = false.
Proof. reflexivity. Qed.

(** C5 (at [drawDOM(canvas0, 42)] over the page [world1]). The render is
    not skipped: the current tree is replaced by a snapshot of the number
    and the canvas is cleared and redrawn. *)
Theorem drawDOM_number_renders :
  option_map (fun d => nid (root d)) (currentTree world1) = Some 6%nat /\
  option_map (fun d => nid (root d)) (currentTree (drawDOM canvas0 (JsNumber 42) world1))
    = Some 8%nat /\
  firstn 4 (skipn (length (calls world1)) (calls (drawDOM canvas0 (JsNumber 42) world1)))
    = [ClearRect 0 0 400 300; FillStyle "#fff"; FillRect 0 0 400 300; StrokeStyle "#ccc"].
Proof. vm_compute. repeat split; reflexivity. Qed.

(** ** C6: parent references of the root's children *)

(** C6 (at [createDOMLikeObject(sample_doc, 0, 400)]). The returned root
    (allocation 6, the [Object.assign] copy) has [parentNode = null], but its
    children HEAD and BODY have [parentNode] = allocation 0, the node built
    by the traversal, not the returned root. *)
Theorem createDOMLikeObject_child_parent :
  parentNode (root sample_tree) = None /\
  nid (root sample_tree) = 6%nat /\
  map parentNode (children (root sample_tree)) = [Some 0%nat; Some 0%nat].
Proof. vm_compute. repeat split; reflexivity. Qed.

(** ** C9: the link and image buckets *)

(** C9 (at [link_doc]: an image, a link with [href=""], a link without
    [href]).  Built from the DOM ([NamedNodeMap] attributes) the index has
    one image and one link; rebuilt from the snapshot (as the drill-down
    does), whose attributes are a vanilla object, the link with the empty
    [href] fails the truthiness test and the link bucket is empty. *)
Theorem link_index_rebuild :
  length (images (params link_snapshot)) = 1%nat /\
  length (links (params link_snapshot)) = 1%nat /\
  length (images (params (fst (createDOMLikeObject (src_of_snap (root link_snapshot)) 0 400 5))))
    = 1%nat /\
  links (params (fst (createDOMLikeObject (src_of_snap (root link_snapshot)) 0 400 5))) = [].
Proof. vm_compute. repeat split; reflexivity. Qed.

(** ** Witnesses: the theorems at concrete inputs *)

(** [createDOMLikeObject_partition] at the BODY of [sample_doc]. *)
Lemma createDOMLikeObject_partition_witness :
  start sample_div == start sample_body.
Proof.
  destruct (createDOMLikeObject_partition sample_doc 0 400 0 [1%nat] sample_body
              ltac:(apply Qleb_iff; reflexivity)
              ltac:(vm_compute; reflexivity)
              ltac:(apply Nat.leb_le; vm_compute; reflexivity))
    as (_ & _ & _ & H & _).
  apply H. vm_compute. reflexivity.
Defined.

(** [traverse_leaf] at an [<img>]. *)
Lemma traverse_leaf_witness :
  children (fst (traverseDomNodes (elt "IMG" [] []) None 0 0 400
                   (mkBState initDocParams 0 []))) = [].
Proof.
  exact (proj1 (traverse_leaf (elt "IMG" [] []) None 0 0 400
                  (mkBState initDocParams 0 []) eq_refl)).
Defined.

(** [search_finds_own_center] at the DIV of [sample_doc], cell height 75. *)
Lemma search_finds_own_center_witness :
  searchForNodeWithXY 75 (root (fst (createDOMLikeObject sample_doc 0 400 0)))
    (centerX sample_div) (centerY sample_div 75) = Some sample_div.
Proof.
  apply (search_finds_own_center sample_doc 0 400 0 75 [1%nat; 0%nat] sample_div).
  - apply Qleb_iff. reflexivity.
  - vm_compute. reflexivity.
  - apply Qltb_iff. vm_compute. reflexivity.
  - apply Forall_forall. intros a Ha. vm_compute in Ha.
    repeat (destruct Ha as [<-|Ha]; [vm_compute; reflexivity|]). destruct Ha.
Defined.

(** [search_boundary_none] at the boundary [x = 300] between the DIV and
    the IMG of the BODY of [sample_doc]. *)
Lemma search_boundary_none_witness :
  searchForNodeWithXY 75 (root (fst (createDOMLikeObject sample_doc 0 400 0))) 300 290
  = None.
Proof.
  apply (search_boundary_none sample_doc 0 400 0 75 [1%nat] sample_body 0
           (node_at sample_tree [1%nat; 0%nat]) (node_at sample_tree [1%nat; 1%nat])
           300 290).
  - apply Qleb_iff. reflexivity.
  - vm_compute. reflexivity.
  - vm_compute. reflexivity.
  - vm_compute. reflexivity.
  - apply Qeq_bool_iff. vm_compute. reflexivity.
  - apply Forall_forall. intros a Ha. vm_compute in Ha.
    repeat (destruct Ha as [<-|Ha]; [vm_compute; reflexivity|]). destruct Ha.
Defined.

(** [click_drill_up_scenario] on [world1]: BODY, then its DIV, then back
    twice. *)
Lemma click_drill_up_scenario_witness :
  let SA := fst (createDOMLikeObject (src_of_snap sample_body) 0 (width canvas0)
                   (heap world1)) in
  let w1 := handleCanvasClick click_body world1 in
  let w2 := handleCanvasClick click_div w1 in
  let w3 := handleCanvasClick click_back w2 in
  let w4 := handleCanvasClick click_back w3 in
  currentTree w1 = Some SA /\ treeStack w1 = [sample_tree] /\
  treeStack w2 = [sample_tree; SA] /\
  currentTree w3 = Some SA /\ treeStack w3 = [sample_tree] /\
  currentTree w4 = Some sample_tree /\ treeStack w4 = [].
Proof.
  apply (click_drill_up_scenario world1 canvas0 sample_tree sample_body
           (node_at (fst (createDOMLikeObject (src_of_snap sample_body) 0 (width canvas0)
                            (heap world1))) [0%nat])
           click_body click_div click_back click_back).
  - vm_compute. reflexivity.
  - vm_compute. reflexivity.
  - vm_compute. reflexivity.
  - vm_compute. reflexivity.
  - vm_compute. left. reflexivity.
  - intros [H _]. apply Qltb_iff in H. vm_compute in H. discriminate H.
  - vm_compute. reflexivity.
  - apply Qltb_iff. reflexivity.
  - apply Qltb_iff. reflexivity.
  - apply Qltb_iff. reflexivity.
  - apply Qltb_iff. reflexivity.
Defined.

(** [click_miss_no_change] on [world1] at [(5, 290)]: left of the page's
    nodes, and below the back corner. *)
Lemma click_miss_no_change_witness : handleCanvasClick click_empty world1 = world1.
Proof.
  apply click_miss_no_change.
  - intros (_ & H & _). apply Qltb_iff in H. vm_compute in H. discriminate H.
  - intros cur H. vm_compute in H. injection H as <-. vm_compute. reflexivity.
Defined.

(** ** Further properties of the code *)

Lemma nodes_unfold n : nodes n = n :: flat_map nodes (children n).
Proof. destruct n; reflexivity. Qed.

Lemma post_unfold n : post n = flat_map post (children n) ++ [n].
Proof. destruct n; reflexivity. Qed.

Lemma src_nodes_unfold n : src_nodes n = n :: flat_map src_nodes (src_children n).
Proof. destruct n; reflexivity. Qed.

Lemma resib_self c : resib c c.
Proof.
  exists (previousElementSibling c), (nextElementSibling c). destruct c; reflexivity.
Qed.

Lemma resib_refl l : Forall2 resib l l.
Proof. induction l; constructor; [apply resib_self|exact IHl]. Qed.

Lemma bind_siblings_nodes p out :
  Forall2 resib (flat_map nodes (bind_siblings p out)) (flat_map nodes out).
Proof.
  revert p; induction out as [|c out IH]; intros p; [constructor|].
  cbn [bind_siblings flat_map].
  rewrite (nodes_unfold (set_siblings _ _ _)), (nodes_unfold c).
  cbn [app]. constructor; [do 2 eexists; reflexivity|].
  apply Forall2_app; [|apply IH].
  replace (children (set_siblings c p (option_map nid (hd_error out))))
    with (children c) by (destruct c; reflexivity).
  apply resib_refl.
Qed.

Lemma map_nid_bind_siblings p out : map nid (bind_siblings p out) = map nid out.
Proof. revert p; induction out as [|c out IH]; intros p; simpl; [reflexivity|]. 
  rewrite IH. destruct c; reflexivity. Qed.

Lemma bind_siblings_nth_exact p cs i c :
  nth_error (bind_siblings p cs) i = Some c ->
  exists c0, nth_error cs i = Some c0 /\
    c = set_siblings c0 (match i with O => p | S j => nth_error (map nid cs) j end)
          (nth_error (map nid cs) (S i)).
Proof.
  revert p i; induction cs as [|a cs IH]; intros p i H; destruct i; simpl in H;
    try discriminate.
  - injection H as <-. exists a. split; [reflexivity|]. destruct cs; reflexivity.
  - destruct (IH _ _ H) as (c0 & H1 & H2). exists c0. split; [exact H1|].
    rewrite H2. destruct i; reflexivity.
Qed.

Lemma resib_map_nid X Y : Forall2 resib X Y -> map nid X = map nid Y.
Proof.
  induction 1 as [|x y X Y (a & b & ->) _ IH]; simpl; [reflexivity|].
  rewrite IH. destruct y; reflexivity.
Qed.

Lemma resib_mirrors L X Y : Forall2 resib X Y -> Forall2 mirrors L Y -> Forall2 mirrors L X.
Proof.
  intros HR; revert L; induction HR as [|x y X Y (a & b & ->) _ IH]; intros L HM;
    inversion HM; subst; constructor; auto; destruct y; assumption.
Qed.

Lemma resib_linked X Y : Forall2 resib X Y -> Forall linked Y -> Forall linked X.
Proof.
  induction 1 as [|x y X Y (a & b & ->) _ IH]; intros HL; inversion HL; subst;
    constructor; auto; destruct y; assumption.
Qed.

Lemma resib_fold L X Y acc : Forall2 resib X Y ->
  fold_left index_step (combine L X) acc = fold_left index_step (combine L Y) acc.
Proof.
  intros HR; revert L acc; induction HR as [|x y X Y (a & b & ->) _ IH]; intros L acc;
    destruct L as [|s L]; simpl; try reflexivity.
  rewrite IH. destruct y; reflexivity.
Qed.

Lemma combine_app {A B} (l1 l2 : list A) (m1 m2 : list B) :
  length l1 = length m1 -> combine (l1 ++ l2) (m1 ++ m2) = combine l1 m1 ++ combine l2 m2.
Proof.
  revert m1; induction l1 as [|a l1 IH]; intros [|b m1] H; simpl in *; try discriminate;
    [reflexivity|]. rewrite IH by lia. reflexivity.
Qed.

Lemma traverse_children_struct cs :
  Forall (fun c => forall pn d s e st,
            built_ok c pn d st (traverseDomNodes c pn d s e st)) cs ->
  forall me cd s w i st,
  let r := traverse_children traverseDomNodes me cd s w cs i st in
  length (fst r) = length cs /\
  Forall (fun c => parentNode c = me /\ depth c = cd) (fst r) /\
  map nid (flat_map nodes (fst r)) = seq (nextObj st) (length (flat_map nodes (fst r))) /\
  nextObj (snd r) = (nextObj st + length (flat_map nodes (fst r)))%nat /\
  Forall2 mirrors (flat_map src_nodes cs) (flat_map nodes (fst r)) /\
  docParams (snd r) =
    fold_left index_step (combine (flat_map src_nodes cs) (flat_map nodes (fst r)))
      (docParams st) /\
  Forall linked (flat_map nodes (fst r)).
Proof.
  induction cs as [|c0 cs IH]; intros HF me cd s w i st; simpl.
  - repeat split; auto; lia.
  - inversion HF as [|? ? Hc0 HFcs]; subst.
    specialize (Hc0 me cd (s + qn i * w) (s + qn i * w + w) st).
    destruct (traverseDomNodes c0 me cd (s + qn i * w) (s + qn i * w + w) st)
      as [child st1] eqn:E1.
    specialize (IH HFcs me cd s w (S i) st1).
    destruct (traverse_children traverseDomNodes me cd s w cs (S i) st1)
      as [rest st2] eqn:E2.
    unfold built_ok in Hc0. simpl in Hc0, IH |- *.
    destruct Hc0 as (Hn & Hp & Hd & _ & _ & Hids & Hnext & Hmir & Hdoc & Hlk).
    destruct IH as (Hlen & Hpd & Hids' & Hnext' & Hmir' & Hdoc' & Hlk').
    pose proof (Forall2_length Hmir) as HL.
    split; [congruence|]. split; [constructor; auto|].
    split.
    { rewrite map_app, Hids, Hids', Hnext, length_app, seq_app. reflexivity. }
    split; [rewrite Hnext', Hnext, length_app; lia|].
    split; [apply Forall2_app; assumption|].
    split; [|apply Forall_app; split; assumption].
    rewrite Hdoc', Hdoc, combine_app, fold_left_app by exact HL. reflexivity.
Qed.

Lemma hd_nid (l : list Snap) :
  match l with [] => None | c :: _ => Some (nid c) end = hd_error (map nid l).
Proof. destruct l; reflexivity. Qed.

Lemma traverse_struct node :
  forall pn d s e st, built_ok node pn d st (traverseDomNodes node pn d s e st).
Proof.
  induction node as [t i a cs IH] using src_ind'.
  intros pn d s e st. simpl.
  set (st1 := mkBState _ _ _).
  pose proof (traverse_children_struct cs IH (Some (nextObj st)) (S d) s
                ((e - s) / qn (length cs)) 0 st1) as HL.
  destruct (traverse_children traverseDomNodes (Some (nextObj st)) (S d) s
              ((e - s) / qn (length cs)) cs 0 st1) as [kids st2].
  simpl in HL. destruct HL as (Hlen & Hpd & Hids & Hnext & Hmir & Hdoc & Hlk).
  pose proof (bind_siblings_nodes None kids) as HR.
  pose proof (Forall2_length HR) as HRl.
  unfold built_ok. cbn [fst snd nodes nid parentNode depth previousElementSibling
    nextElementSibling src_nodes].
  split; [reflexivity|]. split; [reflexivity|]. split; [reflexivity|].
  split; [reflexivity|]. split; [reflexivity|].
  split.
  { cbn [map length seq]. f_equal. rewrite (resib_map_nid _ _ HR), Hids, HRl. reflexivity. }
  split; [rewrite Hnext; cbn [length]; rewrite HRl; simpl; lia|].
  split.
  { constructor.
    - unfold mirrors. simpl. rewrite bind_siblings_length, Hlen.
      repeat split; reflexivity.
    - exact (resib_mirrors _ _ _ HR Hmir). }
  split.
  { cbn [combine fold_left]. rewrite (resib_fold _ _ _ _ HR), Hdoc. reflexivity. }
  constructor; [|exact (resib_linked _ _ HR Hlk)].
  unfold linked. cbn [childElementCount children firstElementChild lastElementChild nid depth].
  rewrite map_nid_bind_siblings, bind_siblings_length, Hlen.
  split; [reflexivity|].
  split.
  { rewrite hd_nid. destruct kids; simpl in Hlen |- *; rewrite <- Hlen; reflexivity. }
  split.
  { rewrite hd_nid, map_rev. destruct kids; simpl in Hlen |- *; rewrite <- Hlen;
      [reflexivity|]. rewrite <- map_rev. reflexivity. }
  intros j c Hj.
  destruct (bind_siblings_nth_exact _ _ _ _ Hj) as (c0 & Hc0 & ->).
  rewrite Forall_forall in Hpd.
  destruct (Hpd c0 (nth_error_In _ _ Hc0)) as [Hp Hd].
  destruct c0; simpl in *. subst.
  split; [reflexivity|]. split; [reflexivity|].
  split; [destruct j; reflexivity|reflexivity].
Qed.

Lemma index_step_spec acc s m : mirrors s m ->
  let acc' := index_step acc (s, m) in
  images acc' = images acc ++ (if has_tag "IMG" m then [nid m] else []) /\
  scripts acc' = scripts acc ++ (if has_tag "SCRIPT" m then [nid m] else []) /\
  forms acc' = forms acc ++ (if has_tag "FORM" m then [nid m] else []) /\
  body acc' = (if has_tag "BODY" m then Some (nid m) else body acc) /\
  head acc' = (if has_tag "HEAD" m then Some (nid m) else head acc) /\
  documentElement acc' = (if has_tag "HTML" m then Some (nid m) else documentElement acc) /\
  links acc' = links acc ++
    (if (has_tag "A" m || has_tag "AREA" m) && href_truthy (src_attributes s)
     then [nid m] else []) /\
  ids acc' = match id_ m with Some k => assoc_set k (nid m) (ids acc) | None => ids acc end /\
  largestDepth acc' = Nat.max (largestDepth acc) (depth m).
Proof.
  intros (Ht & Hi & _).
  destruct s as [t i a kids]; simpl in Ht, Hi.
  unfold index_step, has_tag. cbn [fst snd src_attributes].
  rewrite Ht, Hi.
  unfold register_tag, register_id, bump_depth, truthy_str. cbn [src_tagName src_id src_attributes].
  set (n := nid m). clearbody n.
  destruct (Nat.ltb_spec (largestDepth acc) (depth m)) as [Hlt|Hge].
  - destruct acc as [b h de is ls ims scs fs ld]. cbn in Hlt |- *.
    replace (Nat.max ld (depth m)) with (depth m) by lia.
    destruct i as [k|]; [destruct (String.eqb k "")|]; cbn;
    (destruct t as [t|]; cbn;
     [repeat match goal with |- context [String.eqb t ?lit] =>
               destruct (String.eqb_spec t lit) as [->|?]; cbn end|]);
    rewrite ?app_nil_r; repeat split; try reflexivity;
    destruct (href_truthy a); cbn; rewrite ?app_nil_r; reflexivity.
  - destruct acc as [b h de is ls ims scs fs ld]. cbn in Hge |- *.
    replace (Nat.max ld (depth m)) with ld by lia.
    destruct i as [k|]; [destruct (String.eqb k "")|]; cbn;
    (destruct t as [t|]; cbn;
     [repeat match goal with |- context [String.eqb t ?lit] =>
               destruct (String.eqb_spec t lit) as [->|?]; cbn end|]);
    rewrite ?app_nil_r; repeat split; try reflexivity;
    destruct (href_truthy a); cbn; rewrite ?app_nil_r; reflexivity.
Qed.

Lemma last_ref_cons (p : Snap -> bool) m l d :
  last_ref (filter p (m :: l)) d = last_ref (filter p l) (if p m then Some (nid m) else d).
Proof.
  unfold last_ref. cbn [filter]. destruct (p m); [|reflexivity].
  cbn [rev]. destruct (rev (filter p l)); reflexivity.
Qed.

Lemma assoc_get_set {A} k k' (v : A) l :
  assoc_get k (assoc_set k' v l) = if String.eqb k k' then Some v else assoc_get k l.
Proof.
  induction l as [|[k0 v0] l IH]; simpl.
  - destruct (String.eqb k k'); reflexivity.
  - destruct (String.eqb_spec k' k0) as [->|Hne]; simpl.
    + destruct (String.eqb k k0); reflexivity.
    + rewrite IH. destruct (String.eqb_spec k k0) as [->|]; [|reflexivity].
      destruct (String.eqb_spec k0 k') as [->|]; [congruence|reflexivity].
Qed.

Lemma assoc_get_app {A} k (l1 l2 : list (string * A)) :
  assoc_get k (l1 ++ l2) =
  match assoc_get k l1 with Some v => Some v | None => assoc_get k l2 end.
Proof.
  induction l1 as [|[k0 v0] l1 IH]; simpl; [reflexivity|].
  destruct (String.eqb k k0); [reflexivity|exact IH].
Qed.

(** The attribute copy: a later attribute of the same name wins. *)
Lemma assoc_get_copy k (l acc0 : list (string * string)) :
  assoc_get k (fold_left (fun acc p => assoc_set (fst p) (snd p) acc) l acc0) =
  match assoc_get k (rev l) with Some v => Some v | None => assoc_get k acc0 end.
Proof.
  revert acc0; induction l as [|[k0 v0] l IH]; intros acc0; simpl; [reflexivity|].
  rewrite IH, assoc_get_app, assoc_get_set. simpl.
  destruct (assoc_get k (rev l)); [reflexivity|].
  destruct (String.eqb k k0); reflexivity.
Qed.

Lemma assoc_get_None {A} k (l : list (string * A)) :
  assoc_get k l = None <-> ~ In k (map fst l).
Proof.
  induction l as [|[k0 v0] l IH]; simpl; [tauto|].
  destruct (String.eqb_spec k k0) as [->|Hne].
  - split; [discriminate|]. intros H. exfalso. apply H. left. reflexivity.
  - rewrite IH. split; [intros H [H'|H']; [congruence|tauto]|tauto].
Qed.

Lemma copy_has_href l : has_href (copy_attributes (NamedNodeMap l)) = href_truthy (NamedNodeMap l).
Proof.
  unfold copy_attributes, has_href, href_truthy. rewrite assoc_get_copy. simpl.
  destruct (assoc_get "href"%string (rev l)) eqn:E1; destruct (assoc_get "href"%string l) eqn:E2;
    try reflexivity; exfalso.
  - apply assoc_get_None in E2. apply E2. rewrite <- (rev_involutive l), map_rev, <- in_rev.
    destruct (in_dec string_dec "href"%string (map fst (rev l))) as [Hi|Hi]; [exact Hi|].
    apply assoc_get_None in Hi. congruence.
  - apply assoc_get_None in E1. apply E1. rewrite map_rev, <- in_rev.
    destruct (in_dec string_dec "href"%string (map fst l)) as [Hi|Hi]; [exact Hi|].
    apply assoc_get_None in Hi. congruence.
Qed.

Lemma fold_index L X acc : Forall2 mirrors L X ->
  let acc' := fold_left index_step (combine L X) acc in
  images acc' = images acc ++ map nid (filter (has_tag "IMG") X) /\
  scripts acc' = scripts acc ++ map nid (filter (has_tag "SCRIPT") X) /\
  forms acc' = forms acc ++ map nid (filter (has_tag "FORM") X) /\
  body acc' = last_ref (filter (has_tag "BODY") X) (body acc) /\
  head acc' = last_ref (filter (has_tag "HEAD") X) (head acc) /\
  documentElement acc' = last_ref (filter (has_tag "HTML") X) (documentElement acc) /\
  (forall k, assoc_get k (ids acc') = last_ref (with_id k X) (assoc_get k (ids acc))) /\
  largestDepth acc' = fold_left Nat.max (map depth X) (largestDepth acc).
Proof.
  intros HM; revert acc; induction HM as [|s m L X Hm HM IH]; intros acc;
    cbn [combine fold_left].
  - rewrite !app_nil_r. repeat split; reflexivity.
  - destruct (IH (index_step acc (s, m))) as (H1 & H2 & H3 & H4 & H5 & H6 & H7 & H8).
    destruct (index_step_spec acc s m Hm) as (G1 & G2 & G3 & G4 & G5 & G6 & _ & G8 & G9).
    rewrite H1, G1, H2, G2, H3, G3, H4, G4, H5, G5, H6, G6, H8, G9, !last_ref_cons.
    split; [cbn [filter]; destruct (has_tag "IMG" m); cbn [map app]; rewrite <- ?app_assoc; reflexivity|].
    split; [cbn [filter]; destruct (has_tag "SCRIPT" m); cbn [map app]; rewrite <- ?app_assoc; reflexivity|].
    split; [cbn [filter]; destruct (has_tag "FORM" m); cbn [map app]; rewrite <- ?app_assoc; reflexivity|].
    split; [reflexivity|]. split; [reflexivity|]. split; [reflexivity|].
    split; [|reflexivity].
    intros k. rewrite H7, G8. unfold with_id. rewrite last_ref_cons. f_equal.
    destruct (id_ m) as [k'|]; [|reflexivity].
    rewrite assoc_get_set, String.eqb_sym. reflexivity.
Qed.

Lemma fold_links L X acc : Forall2 mirrors L X -> Forall live L ->
  links (fold_left index_step (combine L X) acc) = links acc ++ map nid (filter is_link X).
Proof.
  intros HM; revert acc; induction HM as [|s m L X Hm HM IH]; intros acc HL;
    cbn [combine fold_left].
  - rewrite app_nil_r. reflexivity.
  - inversion HL as [|? ? Hs HL']; subst.
    rewrite (IH _ HL').
    destruct (index_step_spec acc s m Hm) as (_ & _ & _ & _ & _ & _ & G7 & _).
    rewrite G7. unfold is_link. cbn [filter].
    destruct Hm as (_ & _ & Ha & _). unfold live in Hs. rewrite Ha.
    destruct (src_attributes s) as [l| |]; try contradiction.
    rewrite copy_has_href.
    destruct ((has_tag "A" m || has_tag "AREA" m) && href_truthy (NamedNodeMap l));
      simpl; rewrite <- ?app_assoc; reflexivity.
Qed.

Lemma Forall_flat_map {A B} (P : B -> Prop) (f : A -> list B) l :
  Forall P (flat_map f l) <-> Forall (fun x => Forall P (f x)) l.
Proof.
  induction l as [|x l IH]; simpl; [split; constructor|].
  rewrite Forall_app, IH. split; [intros [H1 H2]; constructor; auto|].
  intros H; inversion H; subst; split; auto.
Qed.

Lemma linked_depth n p m :
  Forall linked (nodes n) -> subtree_at n p = Some m -> depth m = (depth n + length p)%nat.
Proof.
  revert n; induction p as [|i p IH]; intros n HL Hm; simpl in Hm.
  - injection Hm as <-. simpl. lia.
  - destruct (nth_error (children n) i) as [c|] eqn:E; [|discriminate].
    rewrite nodes_unfold in HL. inversion HL as [|? ? Hn HL']; subst.
    destruct Hn as (_ & _ & _ & Hch). destruct (Hch i c E) as (_ & Hd & _).
    rewrite Forall_flat_map, Forall_forall in HL'.
    rewrite (IH c (HL' c (nth_error_In _ _ E)) Hm), Hd. simpl. lia.
Qed.

Lemma fold_max l a : fold_left Nat.max l a = Nat.max a (list_max l).
Proof.
  revert a; induction l as [|x l IH]; intros a; simpl; [lia|].
  rewrite IH. lia.
Qed.

Lemma nodes_set_nid n o : nodes (set_nid n o) = set_nid n o :: flat_map nodes (children n).
Proof. destruct n; reflexivity. Qed.


Ltac built node pn d s e st :=
  let HB := fresh "HB" in
  pose proof (traverse_struct node pn d s e st) as HB; unfold built_ok in HB;
  destruct (traverseDomNodes node pn d s e st) as [sn st']; cbn [fst snd] in HB |- *.

(** X1. Node by node in document order, the tree built by [traverseDomNodes]
    has its source's tag, its source's [id] when truthy (null otherwise), a
    copy of its source's attribute object, and as many children as the
    source node, with [childElementCount] equal to that number. *)
Theorem traverseDomNodes_mirrors node pn d s e st :
  Forall2 mirrors (src_nodes node) (nodes (fst (traverseDomNodes node pn d s e st))).
Proof. built node pn d s e st. tauto. Qed.

(** X2. When the source node's attributes are a [NamedNodeMap], the built
    node gets a plain object in which each name maps to the value of its
    last occurrence in the map. *)
Theorem traverseDomNodes_copies_attributes node pn d s e st l :
  src_attributes node = NamedNodeMap l ->
  exists l', attributes (fst (traverseDomNodes node pn d s e st)) = PlainAttrs l' /\
  forall k, assoc_get k l' = assoc_get k (rev l).
Proof.
  intros Hl. built node pn d s e st.
  destruct HB as (_ & _ & _ & _ & _ & _ & _ & Hmir & _).
  rewrite src_nodes_unfold, nodes_unfold in Hmir. inversion Hmir as [|? ? ? ? Hm _]; subst.
  destruct Hm as (_ & _ & Ha & _). rewrite Ha, Hl.
  eexists. split; [reflexivity|]. intros k. rewrite assoc_get_copy. simpl.
  destruct (assoc_get k (rev l)); reflexivity.
Qed.

(** X3. The node built by [traverseDomNodes] has the given parent and no
    siblings, and every node of the built tree has [childElementCount],
    [firstElementChild] and [lastElementChild] matching its children, and
    each child points back to it as parent, sits one level deeper, and
    refers to its neighbours in the children list as siblings. *)
Theorem traverseDomNodes_child_links node pn d s e st :
  let sn := fst (traverseDomNodes node pn d s e st) in
  parentNode sn = pn /\ previousElementSibling sn = None /\
  nextElementSibling sn = None /\ Forall linked (nodes sn).
Proof. built node pn d s e st. tauto. Qed.

(** X4. The node reached from the built node by the child path [p] has
    depth [d + length p]. *)
Theorem traverseDomNodes_depth node pn d s e st p m :
  subtree_at (fst (traverseDomNodes node pn d s e st)) p = Some m ->
  depth m = (d + length p)%nat.
Proof.
  intros Hm. built node pn d s e st.
  destruct HB as (_ & _ & Hd & _ & _ & _ & _ & _ & _ & Hlk).
  rewrite (linked_depth _ _ _ Hlk Hm), Hd. reflexivity.
Qed.

(** X6. [traverseDomNodes] appends to the [images], [scripts] and [forms]
    buckets the built nodes tagged IMG, SCRIPT and FORM, in document order. *)
Theorem traverseDomNodes_buckets node pn d s e st :
  let r := traverseDomNodes node pn d s e st in
  images (docParams (snd r)) =
    images (docParams st) ++ map nid (filter (has_tag "IMG") (nodes (fst r))) /\
  scripts (docParams (snd r)) =
    scripts (docParams st) ++ map nid (filter (has_tag "SCRIPT") (nodes (fst r))) /\
  forms (docParams (snd r)) =
    forms (docParams st) ++ map nid (filter (has_tag "FORM") (nodes (fst r))).
Proof.
  built node pn d s e st.
  destruct HB as (_ & _ & _ & _ & _ & _ & _ & Hmir & Hdoc & _).
  rewrite Hdoc. destruct (fold_index _ _ (docParams st) Hmir) as (H1 & H2 & H3 & _).
  tauto.
Qed.

(** X7. After [traverseDomNodes], [body], [head] and [documentElement] refer
    to the last BODY, HEAD and HTML node of the built tree in document
    order, and are unchanged when there is none. *)
Theorem traverseDomNodes_doc_refs node pn d s e st :
  let r := traverseDomNodes node pn d s e st in
  body (docParams (snd r)) = last_ref (filter (has_tag "BODY") (nodes (fst r))) (body (docParams st)) /\
  head (docParams (snd r)) = last_ref (filter (has_tag "HEAD") (nodes (fst r))) (head (docParams st)) /\
  documentElement (docParams (snd r)) =
    last_ref (filter (has_tag "HTML") (nodes (fst r))) (documentElement (docParams st)).
Proof.
  built node pn d s e st.
  destruct HB as (_ & _ & _ & _ & _ & _ & _ & Hmir & Hdoc & _).
  rewrite Hdoc. destruct (fold_index _ _ (docParams st) Hmir) as (_ & _ & _ & H4 & H5 & H6 & _).
  tauto.
Qed.

(** X8. After [traverseDomNodes], the [ids] entry for [k] refers to the last
    built node (in document order) whose [id] is [k], and is unchanged when
    there is none. *)
Theorem traverseDomNodes_ids node pn d s e st k :
  let r := traverseDomNodes node pn d s e st in
  assoc_get k (ids (docParams (snd r))) =
  last_ref (with_id k (nodes (fst r))) (assoc_get k (ids (docParams st))).
Proof.
  built node pn d s e st.
  destruct HB as (_ & _ & _ & _ & _ & _ & _ & Hmir & Hdoc & _).
  rewrite Hdoc. destruct (fold_index _ _ (docParams st) Hmir) as (_ & _ & _ & _ & _ & _ & H7 & _).
  apply H7.
Qed.

(** X9. On a source tree whose nodes all carry a [NamedNodeMap], the [links]
    bucket gets, in document order, exactly the built A and AREA nodes
    whose attributes have an [href] key. *)
Theorem traverseDomNodes_live_links node pn d s e st :
  Forall live (src_nodes node) ->
  let r := traverseDomNodes node pn d s e st in
  links (docParams (snd r)) = links (docParams st) ++ map nid (filter is_link (nodes (fst r))).
Proof.
  intros HL. built node pn d s e st.
  destruct HB as (_ & _ & _ & _ & _ & _ & _ & Hmir & Hdoc & _).
  rewrite Hdoc. exact (fold_links _ _ _ Hmir HL).
Qed.

(** X10. The [largestDepth] of a fresh [createDOMLikeObject] is the largest
    depth of a node of its tree. *)
Theorem createDOMLikeObject_largestDepth src s e h :
  let D := fst (createDOMLikeObject src s e h) in
  largestDepth (params D) = list_max (map depth (nodes (root D))).
Proof.
  unfold createDOMLikeObject.
  pose proof (traverse_struct src None 0 s e (mkBState initDocParams h [])) as HB.
  destruct (traverseDomNodes src None 0 s e (mkBState initDocParams h [])) as [sn st].
  unfold built_ok in HB. cbn [fst snd root params docParams] in HB |- *.
  destruct HB as (_ & _ & _ & _ & _ & _ & _ & Hmir & Hdoc & _).
  rewrite Hdoc. destruct (fold_index _ _ initDocParams Hmir) as (_ & _ & _ & _ & _ & _ & _ & H8).
  rewrite H8, fold_max, nodes_set_nid, (nodes_unfold sn). simpl.
  destruct sn; reflexivity.
Qed.

Lemma shape_set_siblings c a b : shape (set_siblings c a b) = shape c.
Proof. destruct c; reflexivity. Qed.

Lemma shape_set_nid c o : shape (set_nid c o) = shape c.
Proof. destruct c; reflexivity. Qed.

Lemma map_shape_bind_siblings p l : map shape (bind_siblings p l) = map shape l.
Proof.
  revert p; induction l as [|c l IH]; intros p; cbn [bind_siblings map]; [reflexivity|].
  rewrite shape_set_siblings, IH. reflexivity.
Qed.

Lemma traverse_children_shape cs :
  Forall (fun c => forall pn d s e st, shape (fst (traverseDomNodes c pn d s e st)) = src_shape c) cs ->
  forall me cd s w i st,
  map shape (fst (traverse_children traverseDomNodes me cd s w cs i st)) = map src_shape cs.
Proof.
  induction cs as [|c0 cs IH]; intros HF me cd s w i st; simpl; [reflexivity|].
  inversion HF as [|? ? Hc0 HFcs]; subst.
  specialize (Hc0 me cd (s + qn i * w) (s + qn i * w + w) st).
  destruct (traverseDomNodes c0 me cd (s + qn i * w) (s + qn i * w + w) st) as [child st1].
  specialize (IH HFcs me cd s w (S i) st1).
  destruct (traverse_children traverseDomNodes me cd s w cs (S i) st1) as [rest st2].
  simpl in *. rewrite Hc0, IH. reflexivity.
Qed.

Lemma traverse_shape node :
  forall pn d s e st, shape (fst (traverseDomNodes node pn d s e st)) = src_shape node.
Proof.
  induction node as [t i a cs IH] using src_ind'.
  intros pn d s e st. simpl.
  set (st1 := mkBState _ _ _).
  pose proof (traverse_children_shape cs IH (Some (nextObj st)) (S d) s
                ((e - s) / qn (length cs)) 0 st1) as HL.
  destruct (traverse_children traverseDomNodes (Some (nextObj st)) (S d) s
              ((e - s) / qn (length cs)) cs 0 st1) as [kids st2].
  simpl in HL |- *. rewrite map_shape_bind_siblings, HL. reflexivity.
Qed.

Lemma clean_shape n : Forall clean (nodes n) -> src_shape (src_of_snap n) = shape n.
Proof.
  induction n as [o f l nx pv cs cnt a d e s t pn i IH] using snap_ind'.
  intros HC. cbn [nodes] in HC. inversion HC as [|? ? (Ha & Hi) HC']; subst.
  simpl in Ha, Hi |- *. rewrite <- Hi. f_equal.
  - destruct a; [contradiction|reflexivity|reflexivity].
  - rewrite map_map. apply Forall_flat_map in HC'. clear HC.
    induction IH as [|c cs Hc IH' IHcs]; [reflexivity|].
    inversion HC' as [|? ? Hc1 HC'']; subst. simpl. rewrite (Hc Hc1), (IHcs HC''). reflexivity.
Qed.

Lemma mirrors_clean s m : mirrors s m -> clean m.
Proof.
  intros (_ & Hi & Ha & _). split.
  - rewrite Ha. destruct (src_attributes s); exact I.
  - rewrite Hi. destruct (truthy_str (src_id s)) eqn:E; [rewrite E; reflexivity|reflexivity].
Qed.

Lemma Forall2_mirrors_clean L X : Forall2 mirrors L X -> Forall clean X.
Proof. induction 1; constructor; [eapply mirrors_clean; eassumption|assumption]. Qed.

Lemma nodes_sub n m : In m (nodes n) -> incl (nodes m) (nodes n).
Proof.
  induction n as [o f l nx pv cs cnt a d e s t pn i IH] using snap_ind'.
  intros Hm. cbn [nodes] in Hm |- *. destruct Hm as [<-|Hm]; [apply incl_refl|].
  apply in_flat_map in Hm as (c & Hc & Hm).
  rewrite Forall_forall in IH.
  intros x Hx. right. apply in_flat_map. exists c. split; [exact Hc|].
  exact (IH c Hc Hm x Hx).
Qed.

Lemma built_clean src s e h :
  Forall clean (nodes (root (fst (createDOMLikeObject src s e h)))).
Proof.
  unfold createDOMLikeObject.
  pose proof (traverse_struct src None 0 s e (mkBState initDocParams h [])) as HB.
  destruct (traverseDomNodes src None 0 s e (mkBState initDocParams h [])) as [sn st].
  unfold built_ok in HB. cbn [fst snd root] in HB |- *.
  destruct HB as (_ & _ & _ & _ & _ & _ & _ & Hmir & _).
  apply Forall2_mirrors_clean in Hmir. rewrite nodes_unfold in Hmir.
  rewrite nodes_set_nid. inversion Hmir as [|? ? Hc Hrest]; subst.
  constructor; [|exact Hrest]. destruct sn; exact Hc.
Qed.

Lemma rebuild_shape src s e h m s' e' h' :
  In m (nodes (root (fst (createDOMLikeObject src s e h)))) ->
  shape (root (fst (createDOMLikeObject (src_of_snap m) s' e' h'))) = shape m.
Proof.
  intros Hm.
  assert (HC : Forall clean (nodes m)).
  { pose proof (built_clean src s e h) as H. rewrite Forall_forall in H |- *.
    intros x Hx. apply H, (nodes_sub _ _ Hm), Hx. }
  unfold createDOMLikeObject at 1.
  destruct (traverseDomNodes (src_of_snap m) None 0 s' e' (mkBState initDocParams h' []))
    as [sn st] eqn:E.
  cbn [fst root]. rewrite shape_set_nid.
  pose proof (traverse_shape (src_of_snap m) None 0 s' e' (mkBState initDocParams h' [])) as HS.
  rewrite E in HS. simpl in HS. rewrite HS. exact (clean_shape m HC).
Qed.

Lemma search_children_some_in f x cs m :
  search_children f x cs = Some m ->
  exists c, In c cs /\ inRange x c = true /\ f c = Some m.
Proof.
  induction cs as [|c0 cs IH]; simpl; intros H; [discriminate|].
  destruct (inRange x c0) eqn:E.
  - exists c0. auto.
  - destruct (IH H) as (c & Hc & Hr & Hf). exists c. auto.
Qed.

(** X12. A node [searchForNodeWithXY] returns is the node searched from or
    has [x] strictly inside its horizontal range. *)
Theorem search_in_interval ch n x y m :
  searchForNodeWithXY ch n x y = Some m ->
  m = n \/ (start m < x /\ x < end_ m).
Proof.
  revert m.
  induction n as [o f l nx pv cs cnt a d e s t pn i IH] using snap_ind'.
  intros m Hm. rewrite search_unfold in Hm.
  destruct (isInNode ch _ x y).
  - left. injection Hm as <-. reflexivity.
  - right. destruct (search_children_some_in _ _ _ _ Hm) as (c & Hc & Hr & Hf).
    rewrite Forall_forall in IH.
    destruct (IH c Hc m Hf) as [->|Hi]; [apply inRange_iff, Hr|exact Hi].
Qed.

Lemma search_in_nodes ch n x y m :
  searchForNodeWithXY ch n x y = Some m -> In m (nodes n).
Proof.
  revert m.
  induction n as [o f l nx pv cs cnt a d e s t pn i IH] using snap_ind'.
  intros m Hm. rewrite search_unfold in Hm. cbn [nodes].
  destruct (isInNode ch _ x y).
  - left. injection Hm as <-. reflexivity.
  - right. destruct (search_children_some_in _ _ _ _ Hm) as (c & Hc & _ & Hf).
    rewrite Forall_forall in IH. apply in_flat_map. exists c. split; [exact Hc|].
    exact (IH c Hc m Hf).
Qed.

(** X13. On a built tree over [start <= end], a point with [x] outside the
    open range [(start, end)] hits at most the root: the search returns the
    root when its marker box holds the point, and null otherwise. *)
Theorem search_outside_root src s e h ch x y :
  s <= e -> x <= s \/ e <= x ->
  searchForNodeWithXY ch (root (fst (createDOMLikeObject src s e h))) x y =
  if isInNode ch (root (fst (createDOMLikeObject src s e h))) x y
  then Some (root (fst (createDOMLikeObject src s e h))) else None.
Proof.
  intros Hle Hx.
  set (R := root (fst (createDOMLikeObject src s e h))).
  destruct (root_geo src s e h) as (Hs & He & Ha). fold R in Hs, He, Ha.
  rewrite search_unfold. destruct (isInNode ch R x y); [reflexivity|].
  apply search_children_none. intros j c Hc.
  apply AllPart_iff in Ha. destruct Ha as [Hp _].
  destruct (child_bounds R j c Hp ltac:(rewrite Hs, He; exact Hle) Hc) as (B1 & _ & B3).
  apply inRange_false. intros [H1 H2]. rewrite Hs in B1. rewrite He in B3.
  destruct Hx; lra.
Qed.

Lemma filter_flat_map {A B} (p : B -> bool) (g : A -> list B) l :
  filter p (flat_map g l) = flat_map (fun a => filter p (g a)) l.
Proof. induction l as [|a l IH]; simpl; [reflexivity|]. rewrite filter_app, IH. reflexivity. Qed.

Lemma length_flat_map' {A B} (g : A -> list B) l :
  length (flat_map g l) = list_sum (map (fun a => length (g a)) l).
Proof. induction l as [|a l IH]; simpl; [reflexivity|]. rewrite length_app, IH. reflexivity. Qed.

(** X14. The painting calls of [drawNodes] are, node after node in
    post-order (all children before their parent), the node's fill style,
    arc and fill, followed by its label for HTML, HEAD and BODY. *)
Theorem drawNodes_paint_order n h :
  filter is_paint (drawNodes n h) = flat_map (fun m => node_marks m h) (post n).
Proof.
  induction n as [o f l nx pv cs cnt a d e s t pn i IH] using snap_ind'.
  cbn [drawNodes post]. rewrite !filter_app, flat_map_app.
  assert (Hsib : forall L : list Call,
    (L = [] \/ exists p1 p2 p3 p4, L = [BeginPath; MoveTo p1 p2; LineTo p3 p4; Stroke; ClosePath]) ->
    filter is_paint L = []).
  { intros L [->|(? & ? & ? & ? & ->)]; reflexivity. }
  rewrite Hsib.
  2:{ destruct (deref cs f) as [c1|], (deref cs l) as [c2|]; auto.
      destruct (Nat.eqb (nid c1) (nid c2)); [auto|right; do 4 eexists; reflexivity]. }
  rewrite filter_flat_map. cbn [app].
  f_equal.
  - clear Hsib. generalize (centerX (mkSnap o f l nx pv cs cnt a d e s t pn i)),
      (centerY (mkSnap o f l nx pv cs cnt a d e s t pn i) h). intros x y.
    induction IH as [|c cs Hc IH' IHcs]; [reflexivity|].
    cbn [flat_map]. rewrite flat_map_app, IHcs, <- Hc. reflexivity.
  - cbn [flat_map]. rewrite app_nil_r. unfold node_marks. cbn [tagName].
    destruct (nodesWithVisibleTags t); reflexivity.
Qed.

Lemma strokes_unfold n h :
  length (filter is_stroke (drawNodes n h)) =
  (sib_strokes n + list_sum (map (fun c => S (length (filter is_stroke (drawNodes c h)))) (children n)))%nat.
Proof.
  destruct n as [o f l nx pv cs cnt a d e s t pn i].
  cbn [drawNodes]. rewrite !filter_app, !length_app.
  unfold sib_strokes. cbn [children firstElementChild lastElementChild].
  assert (E : length (filter is_stroke
     (match nodesWithVisibleTags t with
      | Some t0 => [FillStyle "#000"; FillText t0 (centerX (mkSnap o f l nx pv cs cnt a d e s t pn i) + 5)
                     (centerY (mkSnap o f l nx pv cs cnt a d e s t pn i) h - 5)]
      | None => [] end)) = O) by (destruct (nodesWithVisibleTags t); reflexivity).
  rewrite E. clear E. cbn [filter is_stroke length].
  rewrite filter_flat_map, length_flat_map'.
  assert (E : forall x y, map (fun c => length (filter is_stroke
      ([BeginPath; MoveTo x y; LineTo (centerX c) (centerY c h); Stroke; ClosePath] ++ drawNodes c h))) cs
      = map (fun c => S (length (filter is_stroke (drawNodes c h)))) cs).
  { intros x y. apply map_ext. intros c. rewrite filter_app, length_app. reflexivity. }
  rewrite E. clear E.
  destruct (deref cs f) as [c1|], (deref cs l) as [c2|]; cbn; try lia.
  destruct (Nat.eqb (nid c1) (nid c2)); cbn; lia.
Qed.

Lemma flat_map_flat_map' {A B C} (f : A -> list B) (g : B -> list C) l :
  flat_map g (flat_map f l) = flat_map (fun x => flat_map g (f x)) l.
Proof. induction l as [|a l IH]; simpl; [reflexivity|]. rewrite flat_map_app, IH. reflexivity. Qed.

Lemma list_sum_cons' a l : list_sum (a :: l) = (a + list_sum l)%nat.
Proof. reflexivity. Qed.

Lemma strokes_count n h :
  Forall (fun m => sib_strokes m = if two_plus m then 1%nat else O) (nodes n) ->
  length (filter is_stroke (drawNodes n h)) =
  (length (flat_map children (nodes n)) + length (filter two_plus (nodes n)))%nat.
Proof.
  induction n as [o f l nx pv cs cnt a d e s t pn i IH] using snap_ind'.
  intros HF. rewrite strokes_unfold. rewrite nodes_unfold in HF |- *.
  inversion HF as [|? ? Hn HF']; subst. rewrite Hn. clear Hn HF.
  apply Forall_flat_map in HF'.
  cbn [flat_map children filter].
  rewrite flat_map_flat_map', filter_flat_map, length_app, !length_flat_map'.
  assert (Hsum : forall L,
    Forall (fun n => Forall (fun m => sib_strokes m = if two_plus m then 1%nat else O) (nodes n) ->
       length (filter is_stroke (drawNodes n h)) =
       (length (flat_map children (nodes n)) + length (filter two_plus (nodes n)))%nat) L ->
    Forall (fun x => Forall (fun m => sib_strokes m = if two_plus m then 1%nat else O) (nodes x)) L ->
    list_sum (map (fun c => S (length (filter is_stroke (drawNodes c h)))) L) =
    (length L + list_sum (map (fun x => length (flat_map children (nodes x))) L)
     + list_sum (map (fun x => length (filter two_plus (nodes x))) L))%nat).
  { induction L as [|c L IHL]; intros H1 H2; [reflexivity|].
    inversion H1; inversion H2; subst. cbn [map length]. rewrite !list_sum_cons'.
    rewrite IHL by assumption. rewrite H3 by assumption. lia. }
  rewrite (Hsum cs IH HF').
  unfold two_plus at 1 3. cbn [children].
  destruct (2 <=? length cs)%nat; cbn [length]; rewrite length_flat_map'; lia.
Qed.

Lemma length_nodes n : length (nodes n) = S (length (flat_map children (nodes n))).
Proof.
  induction n as [o f l nx pv cs cnt a d e s t pn i IH] using snap_ind'.
  rewrite nodes_unfold. cbn [flat_map children length].
  rewrite flat_map_flat_map', length_app, !length_flat_map'. f_equal.
  induction IH as [|c L Hc IHL IHs]; [reflexivity|]. cbn [map length]. rewrite !list_sum_cons'.
  rewrite Hc, IHs. lia.
Qed.

Lemma NoDup_flat_map_piece {A B} (f : A -> list B) l x :
  NoDup (flat_map f l) -> In x l -> NoDup (f x).
Proof.
  induction l as [|a l IH]; simpl; intros H Hx; [contradiction|].
  destruct Hx as [<-|Hx].
  - exact (NoDup_app_remove_r _ _ H).
  - exact (IH (NoDup_app_remove_l _ _ H) Hx).
Qed.

Lemma NoDup_heads cs :
  NoDup (flat_map (fun c => map nid (nodes c)) cs) -> NoDup (map nid cs).
Proof.
  induction cs as [|c cs IH]; simpl; intros H; [constructor|].
  rewrite nodes_unfold in H. cbn [map app] in H.
  apply NoDup_cons_iff in H as [Hn H]. constructor.
  - intros Hin. apply Hn, in_or_app. right.
    apply in_map_iff in Hin as (c' & Hc' & Hin).
    apply in_flat_map. exists c'. split; [exact Hin|].
    rewrite nodes_unfold. left. exact Hc'.
  - exact (IH (NoDup_app_remove_l _ _ H)).
Qed.

Lemma map_flat_map' {A B C} (f : A -> list B) (g : B -> C) l :
  map g (flat_map f l) = flat_map (fun x => map g (f x)) l.
Proof. induction l as [|a l IH]; simpl; [reflexivity|]. rewrite map_app, IH. reflexivity. Qed.

Lemma NoDup_children m :
  NoDup (map nid (nodes m)) -> NoDup (map nid (children m)).
Proof.
  rewrite nodes_unfold. cbn [map]. intros H. apply NoDup_cons_iff in H as [_ H].
  rewrite map_flat_map' in H. exact (NoDup_heads _ H).
Qed.

Lemma NoDup_sub n m :
  NoDup (map nid (nodes n)) -> In m (nodes n) -> NoDup (map nid (nodes m)).
Proof.
  induction n as [o f l nx pv cs cnt a d e s t pn i IH] using snap_ind'.
  intros H Hm. rewrite nodes_unfold in H, Hm. destruct Hm as [<-|Hm].
  - rewrite nodes_unfold. exact H.
  - cbn [map children] in H. apply NoDup_cons_iff in H as [_ H].
    cbn [children] in Hm. apply in_flat_map in Hm as (c & Hc & Hm).
    rewrite Forall_forall in IH. apply (IH c Hc); [|exact Hm].
    rewrite map_flat_map' in H. exact (NoDup_flat_map_piece _ _ _ H Hc).
Qed.

Lemma find_nid (cs : list Snap) k :
  In k (map nid cs) -> exists c, find (fun c => Nat.eqb (nid c) k) cs = Some c /\ nid c = k.
Proof.
  intros Hk. destruct (find (fun c => Nat.eqb (nid c) k) cs) as [c|] eqn:E.
  - apply find_some in E as [_ E]. apply Nat.eqb_eq in E. exists c. auto.
  - apply in_map_iff in Hk as (c & Hc & Hin).
    pose proof (find_none _ _ E c Hin) as F. apply Nat.eqb_neq in F. contradiction.
Qed.

Lemma sib_strokes_ok m :
  firstElementChild m = hd_error (map nid (children m)) ->
  lastElementChild m = hd_error (rev (map nid (children m))) ->
  NoDup (map nid (children m)) ->
  sib_strokes m = if two_plus m then 1%nat else O.
Proof.
  intros Hf Hl Hnd. unfold sib_strokes, two_plus. rewrite Hf, Hl.
  destruct (children m) as [|c cs]; [reflexivity|].
  cbn [map hd_error deref find]. rewrite Nat.eqb_refl.
  cbn [map rev]. cbn [length].
  destruct (rev (map nid cs)) as [|k r] eqn:Er.
  - assert (cs = []) as -> by (destruct cs; [reflexivity|]; apply (f_equal (@length nat)) in Er;
      rewrite length_rev in Er; discriminate).
    simpl. rewrite !Nat.eqb_refl. reflexivity.
  - cbn [app hd_error deref].
    assert (Hk : In k (map nid cs)) by (apply in_rev; rewrite Er; left; reflexivity).
    destruct (find_nid (c :: cs) k ltac:(right; exact Hk)) as (c2 & -> & Hc2).
    apply NoDup_cons_iff in Hnd as [Hn _].
    assert (Nat.eqb (nid c) (nid c2) = false) as ->.
    { apply Nat.eqb_neq. rewrite Hc2. intros E. apply Hn. rewrite E. exact Hk. }
    destruct cs; [discriminate|]. reflexivity.
Qed.

Lemma mirrors_two_plus L X :
  Forall2 mirrors L X ->
  length (filter two_plus X) =
  length (filter (fun x => 2 <=? length (src_children x))%nat L).
Proof.
  induction 1 as [|s0 m L X Hm _ IH]; [reflexivity|].
  destruct Hm as (_ & _ & _ & _ & Hl). cbn [filter]. unfold two_plus at 1.
  rewrite Hl. destruct (2 <=? length (src_children s0))%nat; cbn [length]; lia.
Qed.

(** X15. Drawing a built tree strokes one line per parent-child edge and one
    sibling line per node with at least two children: for a source tree
    with [n] nodes, [n - 1] plus the number of nodes with two children or
    more. *)
Theorem drawNodes_strokes src s e h ht :
  length (filter is_stroke (drawNodes (root (fst (createDOMLikeObject src s e h))) ht)) =
  (length (src_nodes src) - 1
   + length (filter (fun x => 2 <=? length (src_children x))%nat (src_nodes src)))%nat.
Proof.
  unfold createDOMLikeObject.
  pose proof (traverse_struct src None 0 s e (mkBState initDocParams h [])) as HB.
  destruct (traverseDomNodes src None 0 s e (mkBState initDocParams h [])) as [sn st].
  unfold built_ok in HB. cbn [fst snd nextObj root] in HB |- *.
  destruct HB as (_ & _ & _ & _ & _ & Hids & _ & Hmir & _ & Hlk).
  assert (Hnd : NoDup (map nid (nodes sn))) by (rewrite Hids; apply seq_NoDup).
  set (R := set_nid sn (nextObj st)).
  assert (HR : nodes R = R :: flat_map nodes (children sn)) by apply nodes_set_nid.
  assert (HRs : nodes sn = sn :: flat_map nodes (children sn)) by apply nodes_unfold.
  rewrite strokes_count.
  - pose proof (length_nodes R) as HL. rewrite (Forall2_length Hmir).
    rewrite <- (mirrors_two_plus _ _ Hmir).
    rewrite HR in HL |- *. rewrite HRs. cbn [filter length] in HL |- *.
    assert (two_plus R = two_plus sn) as -> by (subst R; destruct sn; reflexivity).
    destruct (two_plus sn); cbn [length]; lia.
  - rewrite HR. constructor.
    + assert (Hsn : linked sn) by (pose proof Hlk as Hlk0; rewrite HRs in Hlk0; exact (Forall_inv Hlk0)).
      destruct Hsn as (_ & Hf & Hl & _).
      pose proof (NoDup_children sn Hnd) as Hcn.
      apply sib_strokes_ok; subst R; destruct sn; cbn in *; assumption.
    + rewrite Forall_forall. intros m Hm.
      assert (Hin : In m (nodes sn)) by (rewrite HRs; right; exact Hm).
      rewrite Forall_forall in Hlk. destruct (Hlk m Hin) as (_ & Hf & Hl & _).
      apply sib_strokes_ok; [exact Hf|exact Hl|].
      apply NoDup_children, (NoDup_sub sn m Hnd Hin).
Qed.

(** X16. A click keeps the row height used for hit-testing equal to the one
    the current tree is drawn with. *)
Theorem handleCanvasClick_view_consistent ev w :
  view_consistent w -> view_consistent (handleCanvasClick ev w).
Proof.
  unfold view_consistent, handleCanvasClick.
  destruct (ctx w) as [cv|] eqn:Ec, (currentTree w) as [cur|] eqn:Et;
    try (rewrite ?Ec, ?Et; tauto).
  intros H.
  destruct (Qltb _ 20 && Qltb _ 20 && negb _).
  - cbn. reflexivity.
  - destruct (searchForNodeWithXY _ _ _ _) as [found|].
    + destruct (createDOMLikeObject _ _ _ _) as [d h']. cbn. reflexivity.
    + rewrite Ec, Et. exact H.
Qed.


Lemma click_back_cell ev w cv cur :
  ctx w = Some cv -> currentTree w = Some cur ->
  offsetX ev < 20 -> offsetY ev < 20 -> treeStack w <> [] ->
  cellHeight (handleCanvasClick ev w) =
  height cv / qn (S (largestDepth (params (last (treeStack w) cur)))).
Proof.
  intros Hctx Hcur Hx Hy Hne. unfold handleCanvasClick.
  rewrite Hctx, Hcur.
  assert (E : (Qltb (offsetX ev) 20 && Qltb (offsetY ev) 20
               && negb (Nat.eqb (length (treeStack w)) 0)) = true)
    by (apply back_cond_iff; auto).
  rewrite E. reflexivity.
Qed.

(** X18. A click that drills into a node, followed by a click in the back
    corner, restores the canvas, the current tree, the navigation stack and
    the row height. *)
Theorem click_drill_then_back ev1 ev2 w cv cur found :
  ctx w = Some cv -> currentTree w = Some cur -> view_consistent w ->
  ~ (offsetX ev1 < 20 /\ offsetY ev1 < 20 /\ treeStack w <> []) ->
  searchForNodeWithXY (cellHeight w) (root cur) (offsetX ev1) (offsetY ev1) = Some found ->
  offsetX ev2 < 20 -> offsetY ev2 < 20 ->
  let w2 := handleCanvasClick ev2 (handleCanvasClick ev1 w) in
  ctx w2 = ctx w /\ currentTree w2 = currentTree w /\
  treeStack w2 = treeStack w /\ cellHeight w2 = cellHeight w.
Proof.
  intros Hctx Hcur Hvc Hnb Hs Hx Hy w2.
  destruct (click_drill_step ev1 w cv cur found Hctx Hcur Hnb Hs) as (C1 & T1 & S1 & _).
  assert (Hne : treeStack (handleCanvasClick ev1 w) <> []).
  { rewrite S1. intros H. apply app_eq_nil in H as [_ H]. discriminate. }
  destruct (click_back_step ev2 _ cv _ C1 T1 Hx Hy Hne) as (C2 & T2 & S2).
  pose proof (click_back_cell ev2 _ cv _ C1 T1 Hx Hy Hne) as H2.
  rewrite S1, last_last in T2, H2. rewrite S1, removelast_last in S2.
  unfold view_consistent in Hvc. rewrite Hctx, Hcur in Hvc.
  subst w2. rewrite C2, T2, S2, H2, Hctx, Hcur, Hvc. auto.
Qed.

(** X11. Rebuilding from a node [m] of a built tree (the drill-down) gives a
    tree with the same shape as the subtree at [m]: the same tags, ids,
    attribute objects and children. *)
Theorem drill_rebuild_shape src s e h m s' e' h' :
  In m (nodes (root (fst (createDOMLikeObject src s e h)))) ->
  shape (root (fst (createDOMLikeObject (src_of_snap m) s' e' h'))) = shape m.
Proof. apply rebuild_shape. Qed.

Lemma root_top src s e h :
  parentNode (root (fst (createDOMLikeObject src s e h))) = None /\
  depth (root (fst (createDOMLikeObject src s e h))) = O.
Proof.
  unfold createDOMLikeObject.
  pose proof (traverse_struct src None 0 s e (mkBState initDocParams h [])) as HB.
  destruct (traverseDomNodes src None 0 s e (mkBState initDocParams h [])) as [sn st].
  unfold built_ok in HB. cbn [fst snd root] in HB |- *.
  destruct HB as (_ & Hp & Hd & _). destruct sn; cbn in *. auto.
Qed.

(** X19. A drill-down click on a node [found] of a built tree shows a new
    tree of the same shape as the subtree at [found], laid over the canvas
    width at depth 0 without parent, and pushes the old tree on the stack. *)
Theorem click_drill_view ev w cv src s e h found :
  ctx w = Some cv -> currentTree w = Some (fst (createDOMLikeObject src s e h)) ->
  ~ (offsetX ev < 20 /\ offsetY ev < 20 /\ treeStack w <> []) ->
  searchForNodeWithXY (cellHeight w) (root (fst (createDOMLikeObject src s e h)))
    (offsetX ev) (offsetY ev) = Some found ->
  exists d, currentTree (handleCanvasClick ev w) = Some d /\
    shape (root d) = shape found /\
    start (root d) = 0 /\ end_ (root d) = width cv /\
    depth (root d) = O /\ parentNode (root d) = None /\
    treeStack (handleCanvasClick ev w) = treeStack w ++ [fst (createDOMLikeObject src s e h)].
Proof.
  intros Hctx Hcur Hnb Hs.
  destruct (click_drill_step ev w cv _ found Hctx Hcur Hnb Hs) as (_ & T & S & _).
  eexists. split; [exact T|].
  destruct (root_geo (src_of_snap found) 0 (width cv) (heap w)) as (Gs & Ge & _).
  destruct (root_top (src_of_snap found) 0 (width cv) (heap w)) as (Tp & Td).
  split; [apply (rebuild_shape src s e h); exact (search_in_nodes _ _ _ _ _ Hs)|].
  auto.
Qed.

Lemma drawDOMjs_strokes n h :
  length (filter is_stroke (DrawDOMjs.drawNodes n h)) = length (flat_map children (nodes n)).
Proof.
  induction n as [o f l nx pv cs cnt a d e s t pn i IH] using snap_ind'.
  cbn [DrawDOMjs.drawNodes]. rewrite !filter_app, !length_app.
  assert (HT : length (filter is_stroke
     (match nodesWithVisibleTags t with
      | Some t0 => [FillStyle "#000"; FillText t0 (centerX (mkSnap o f l nx pv cs cnt a d e s t pn i) + 5)
                     (centerY (mkSnap o f l nx pv cs cnt a d e s t pn i) h - 5)]
      | None => [] end)) = O) by (destruct (nodesWithVisibleTags t); reflexivity).
  rewrite HT. clear HT. cbn [filter is_stroke length].
  rewrite nodes_unfold. cbn [flat_map children].
  rewrite flat_map_flat_map', length_app, !length_flat_map', filter_flat_map, length_flat_map'.
  generalize (centerX (mkSnap o f l nx pv cs cnt a d e s t pn i)),
    (centerY (mkSnap o f l nx pv cs cnt a d e s t pn i) h). intros x y.
  induction IH as [|c cs Hc IH' IHcs]; [reflexivity|].
  cbn [map length]. rewrite !list_sum_cons'.
  rewrite filter_app, length_app, Hc. cbn [filter is_stroke length]. lia.
Qed.

(** X20. [drawNodes] of drawDOM.js paints node by node in post-order, as
    [drawNodes] of dom-to-canvas.js does, and strokes one line per
    parent-child edge: the number of nodes minus one, on any tree. *)
Theorem drawDOMjs_drawNodes_calls n h :
  filter is_paint (DrawDOMjs.drawNodes n h) = flat_map (fun m => node_marks m h) (post n) /\
  length (filter is_stroke (DrawDOMjs.drawNodes n h)) = (length (nodes n) - 1)%nat.
Proof.
  split.
  - induction n as [o f l nx pv cs cnt a d e s t pn i IH] using snap_ind'.
    cbn [DrawDOMjs.drawNodes post]. rewrite !filter_app, flat_map_app, filter_flat_map.
    f_equal.
    + generalize (centerX (mkSnap o f l nx pv cs cnt a d e s t pn i)),
        (centerY (mkSnap o f l nx pv cs cnt a d e s t pn i) h). intros x y.
      induction IH as [|c cs Hc IH' IHcs]; [reflexivity|].
      cbn [flat_map]. rewrite flat_map_app, IHcs, <- Hc. reflexivity.
    + cbn [flat_map]. rewrite app_nil_r. unfold node_marks. cbn [tagName].
      destruct (nodesWithVisibleTags t); reflexivity.
  - rewrite drawDOMjs_strokes, (length_nodes n). lia.
Qed.

(** ** Witnesses of the further properties *)

(** [traverseDomNodes_copies_attributes] on an anchor whose map lists
    [href] twice: the copy keeps the second value. *)
Lemma traverseDomNodes_copies_attributes_witness :
  exists l', attributes (fst (traverseDomNodes
                (elt "A" [("href"%string, "a"%string); ("href"%string, "b"%string)] [])
                None 0 0 400 (mkBState initDocParams 0 []))) = PlainAttrs l' /\
  forall k, assoc_get k l' =
            assoc_get k (rev [("href"%string, "a"%string); ("href"%string, "b"%string)]).
Proof.
  apply (traverseDomNodes_copies_attributes
           (elt "A" [("href"%string, "a"%string); ("href"%string, "b"%string)] [])
           None 0 0 400 (mkBState initDocParams 0 [])).
  reflexivity.
Defined.

(** [traverseDomNodes_depth] on [sample_doc] at the DIV, path [[1; 0]]. *)
Lemma traverseDomNodes_depth_witness :
  depth (match subtree_at (fst (traverseDomNodes sample_doc None 0 0 400
                                  (mkBState initDocParams 0 []))) [1%nat; 0%nat] with
         | Some m => m | None => emptySnap end) = (0 + 2)%nat.
Proof.
  apply (traverseDomNodes_depth sample_doc None 0 0 400 (mkBState initDocParams 0 [])
           [1%nat; 0%nat]).
  vm_compute. reflexivity.
Defined.

(** [traverseDomNodes_live_links] on [link_doc]. *)
Lemma traverseDomNodes_live_links_witness :
  let r := traverseDomNodes link_doc None 0 0 400 (mkBState initDocParams 0 []) in
  links (docParams (snd r)) =
  links (docParams (mkBState initDocParams 0 [])) ++ map nid (filter is_link (nodes (fst r))).
Proof.
  apply (traverseDomNodes_live_links link_doc None 0 0 400 (mkBState initDocParams 0 [])).
  cbn. repeat constructor.
Defined.

(** [drill_rebuild_shape] on the BODY of [sample_tree] (third node in
    document order). *)
Lemma drill_rebuild_shape_witness :
  shape (root (fst (createDOMLikeObject (src_of_snap sample_body) 0 400 9))) = shape sample_body.
Proof.
  apply (drill_rebuild_shape sample_doc 0 400 0 sample_body 0 400 9).
  apply (nth_error_In _ 2%nat). vm_compute. reflexivity.
Defined.

(** [search_in_interval] on [sample_tree] at the BODY center [(300, 95)]. *)
Lemma search_in_interval_witness :
  sample_body = root sample_tree \/ (start sample_body < 300 /\ 300 < end_ sample_body).
Proof.
  apply (search_in_interval 75 (root sample_tree) 300 95 sample_body).
  vm_compute. reflexivity.
Defined.

(** [search_outside_root] on [sample_doc] over [[0, 400]] at [x = 500]. *)
Lemma search_outside_root_witness :
  searchForNodeWithXY 75 (root (fst (createDOMLikeObject sample_doc 0 400 0))) 500 20 =
  if isInNode 75 (root (fst (createDOMLikeObject sample_doc 0 400 0))) 500 20
  then Some (root (fst (createDOMLikeObject sample_doc 0 400 0))) else None.
Proof.
  apply (search_outside_root sample_doc 0 400 0 75 500 20).
  - apply Qle_bool_iff. reflexivity.
  - right. apply Qle_bool_iff. reflexivity.
Defined.

(** [handleCanvasClick_view_consistent] on [world1] and the click on BODY. *)
Lemma handleCanvasClick_view_consistent_witness :
  view_consistent (handleCanvasClick click_body world1).
Proof.
  apply (handleCanvasClick_view_consistent click_body world1).
  vm_compute. reflexivity.
Defined.


(** [click_drill_then_back] on [world1]: drill into BODY, then back. *)
Lemma click_drill_then_back_witness :
  let w2 := handleCanvasClick click_back (handleCanvasClick click_body world1) in
  ctx w2 = ctx world1 /\ currentTree w2 = currentTree world1 /\
  treeStack w2 = treeStack world1 /\ cellHeight w2 = cellHeight world1.
Proof.
  apply (click_drill_then_back click_body click_back world1 canvas0 sample_tree sample_body).
  - vm_compute. reflexivity.
  - vm_compute. reflexivity.
  - vm_compute. reflexivity.
  - intros [H _]. apply Qltb_iff in H. vm_compute in H. discriminate H.
  - vm_compute. reflexivity.
  - apply Qltb_iff. reflexivity.
  - apply Qltb_iff. reflexivity.
Defined.

(** [click_drill_view] on [world1] and the click on BODY. *)
Lemma click_drill_view_witness :
  exists d, currentTree (handleCanvasClick click_body world1) = Some d /\
    shape (root d) = shape sample_body /\
    start (root d) = 0 /\ end_ (root d) = width canvas0 /\
    depth (root d) = O /\ parentNode (root d) = None /\
    treeStack (handleCanvasClick click_body world1) =
      treeStack world1 ++ [fst (createDOMLikeObject sample_doc 0 400 0)].
Proof.
  apply (click_drill_view click_body world1 canvas0 sample_doc 0 400 0 sample_body).
  - vm_compute. reflexivity.
  - vm_compute. reflexivity.
  - intros [H _]. apply Qltb_iff in H. vm_compute in H. discriminate H.
  - vm_compute. reflexivity.
Defined.
